(** * better-svelte-router: route matching, navigation guards, mode adapters

    A shallow embedding of [src/matcher.ts], [src/guards.ts],
    [src/router-mode.ts] and [src/navigation.ts], and the properties of
    the router that are stated about them; then the path utilities
    ([memoize], [pathname2paths], [matchPath]) and further properties of
    all of these.

    Conventions.
    - A JavaScript string is a [string]: the sequence of its bytes in
      UTF-8.  Every operation the router applies to paths ('/' tests,
      prefix tests, concatenation, slicing at a '/') commutes with that
      encoding.
    - A function that can throw returns a [result]; [Throw] carries the
      JavaScript error.
    - [await] in single-threaded code is sequencing: asynchronous
      functions are state transformers over the [World].
    - A guard or hook is given by what a call of it yields for each
      [(from, to)]; its calls are recorded in the trace.  Guards settle,
      and user functions leave the registries and the location alone
      while the pipeline runs.
    - [path-to-regexp] is a dependency: the matcher is stated for any
      compiler, and run on a reference instance in the examples. *)

From Stdlib Require Import String Ascii List Bool Arith Lia.
From stdpp Require Import base option list gmap strings.

Local Open Scope string_scope.

(** ** JavaScript string primitives used by the router *)

Module Str.

Definition slash : ascii := "/"%char.

Definition is_slash (c : ascii) : bool := Ascii.eqb c slash.

(** [s.startsWith('/')] *)
Definition starts_with_slash (s : string) : bool :=
  match s with
  | String c _ => is_slash c
  | EmptyString => false
  end.

(** [s.endsWith('/')] *)
Fixpoint ends_with_slash (s : string) : bool :=
  match s with
  | EmptyString => false
  | String c EmptyString => is_slash c
  | String _ s' => ends_with_slash s'
  end.

(** [s.slice(0, -1)] *)
Fixpoint drop_last (s : string) : string :=
  match s with
  | EmptyString => EmptyString
  | String _ EmptyString => EmptyString
  | String c s' => String c (drop_last s')
  end.

(** [s.replace(/\/+/g, '/')]: every maximal run of slashes becomes one
    slash, that is, a slash followed by a slash is dropped. *)
Fixpoint collapse_slashes (s : string) : string :=
  match s with
  | EmptyString => EmptyString
  | String c s' =>
      if is_slash c && starts_with_slash s'
      then collapse_slashes s'
      else String c (collapse_slashes s')
  end.

(** [hay.startsWith(needle)] *)
Definition startsWith (hay needle : string) : bool := String.prefix needle hay.

(** [s.slice(n)] for [0 <= n] *)
Fixpoint drop (n : nat) (s : string) : string :=
  match n, s with
  | O, _ => s
  | S n', String _ s' => drop n' s'
  | S _, EmptyString => EmptyString
  end.

(** [hay.replace(needle, '')] with a string pattern: the first (leftmost)
    occurrence of [needle] is removed, the rest is kept. *)
Fixpoint remove_first (needle hay : string) : string :=
  if String.prefix needle hay then drop (String.length needle) hay
  else match hay with
       | EmptyString => EmptyString
       | String c hay' => String c (remove_first needle hay')
       end.

(** [s.replace(/\/$/, '')]: one trailing slash is removed. *)
Definition strip_trailing_slash (s : string) : string :=
  if ends_with_slash s then drop_last s else s.

(** [s] has two adjacent slashes, [s.includes('//')] *)
Fixpoint has_double_slash (s : string) : bool :=
  match s with
  | EmptyString => false
  | String c s' => (is_slash c && starts_with_slash s') || has_double_slash s'
  end.

(** Character classes by code. *)
Definition in_range (lo hi : N) (c : ascii) : bool :=
  let n := N_of_ascii c in (lo <=? n)%N && (n <=? hi)%N.
Definition is_upper := in_range 65 90.
Definition is_lower := in_range 97 122.
Definition is_digit := in_range 48 57.

End Str.

(** ** matcher.ts: path normalization *)

Definition normalizePath (path : string) : string :=
  if String.eqb path "" || String.eqb path "/" then "/"
  else
    let normalized := Str.collapse_slashes path in
    let normalized :=
      if negb (Str.starts_with_slash normalized) then "/" +:+ normalized
      else normalized in
    if (1 <? String.length normalized)%nat && Str.ends_with_slash normalized
    then Str.drop_last normalized
    else normalized.

(** What a normalized path looks like. *)
Definition normal (n : string) : Prop :=
  Str.starts_with_slash n = true /\ Str.has_double_slash n = false /\
  (Str.ends_with_slash n = false \/ n = "/").

(** ** Errors and results *)

(** The JavaScript errors that the modelled code can raise. *)
Inductive JsError :=
  | TypeError (msg : string)
  | URIError (msg : string)
  | Error (msg : string).

(** The outcome of a call that may throw. *)
Inductive result (A : Type) :=
  | Ok (a : A)
  | Throw (e : JsError).
Arguments Ok {A} a.
Arguments Throw {A} e.

#[global] Instance result_ret : MRet result := fun A a => Ok a.
#[global] Instance result_bind : MBind result := fun A B f m =>
  match m with
  | Ok a => f a
  | Throw e => Throw e
  end.

(** How a statement inside a loop body ends: by [return v], or by falling
    through to what follows ([continue] included). *)
Inductive completion (A : Type) :=
  | Return (v : A)
  | Continue.
Arguments Return {A} v.
Arguments Continue {A}.

(** Statement sequencing: the second statement runs when the first one
    neither returned nor threw. *)
Definition and_then {A} (s1 s2 : result (completion A)) : result (completion A) :=
  c ← s1; match c with Return v => Ok (Return v) | Continue => s2 end.

(** ** The builtin [decodeURIComponent]

    ECMA-262 Decode with an empty preserved set: every [%XX] escape is
    decoded; an escape that is cut short or not hexadecimal, and a run of
    escaped octets that is not the UTF-8 encoding of one code point, raise
    URIError.  Strings being UTF-8 here, a decoded code point is the
    octets themselves. *)

Module URI.

Definition hex_val (c : ascii) : option N :=
  let n := N_of_ascii c in
  if (48 <=? n)%N && (n <=? 57)%N then Some (n - 48)%N
  else if (65 <=? n)%N && (n <=? 70)%N then Some (n - 55)%N
  else if (97 <=? n)%N && (n <=? 102)%N then Some (n - 87)%N
  else None.

Inductive Octet :=
  | Plain (c : ascii)
  | Escaped (b : N).

Definition malformed {A} : result A := Throw (URIError "URI malformed").

Fixpoint unescape (s : string) : result (list Octet) :=
  match s with
  | EmptyString => Ok []
  | String c s' =>
      if Ascii.eqb c "%" then
        match s' with
        | String h (String l s'') =>
            match hex_val h, hex_val l with
            | Some hv, Some lv =>
                rest ← unescape s''; Ok (Escaped (16 * hv + lv)%N :: rest)
            | _, _ => malformed
            end
        | _ => malformed
        end
      else rest ← unescape s'; Ok (Plain c :: rest)
  end.

Definition between (lo b hi : N) : bool := (lo <=? b)%N && (b <=? hi)%N.
Definition is_cont (b : N) : bool := between 128 b 191.

(** Well-formed UTF-8 sequences of two, three and four octets. *)
Definition valid2 (b0 b1 : N) : bool := between 194 b0 223 && is_cont b1.
Definition valid3 (b0 b1 b2 : N) : bool :=
  ((N.eqb b0 224 && between 160 b1 191)
   || ((between 225 b0 236 || between 238 b0 239) && is_cont b1)
   || (N.eqb b0 237 && between 128 b1 159)) && is_cont b2.
Definition valid4 (b0 b1 b2 b3 : N) : bool :=
  ((N.eqb b0 240 && between 144 b1 191)
   || (between 241 b0 243 && is_cont b1)
   || (N.eqb b0 244 && between 128 b1 143)) && is_cont b2 && is_cont b3.

Definition octets (bs : list N) (s : string) : string :=
  foldr (fun b acc => String (ascii_of_N b) acc) s bs.

Fixpoint decode_octets (ts : list Octet) : result string :=
  match ts with
  | [] => Ok EmptyString
  | Plain c :: r => s ← decode_octets r; Ok (String c s)
  | Escaped b0 :: r =>
      if (b0 <? 128)%N then s ← decode_octets r; Ok (octets [b0] s)
      else if between 192 b0 223 then
        match r with
        | Escaped b1 :: r1 =>
            if valid2 b0 b1 then s ← decode_octets r1; Ok (octets [b0; b1] s)
            else malformed
        | _ => malformed
        end
      else if between 224 b0 239 then
        match r with
        | Escaped b1 :: Escaped b2 :: r2 =>
            if valid3 b0 b1 b2
            then s ← decode_octets r2; Ok (octets [b0; b1; b2] s)
            else malformed
        | _ => malformed
        end
      else if between 240 b0 247 then
        match r with
        | Escaped b1 :: Escaped b2 :: Escaped b3 :: r3 =>
            if valid4 b0 b1 b2 b3
            then s ← decode_octets r3; Ok (octets [b0; b1; b2; b3] s)
            else malformed
        | _ => malformed
        end
      else malformed
  end.

Definition decodeURIComponent (s : string) : result string :=
  ts ← unescape s; decode_octets ts.

End URI.

(** ** The dependency [path-to-regexp]

    [pathToRegexp(template)] returns a regular expression and the list of
    parameter keys of the template, or throws a TypeError on a template
    it cannot parse.  The library is not part of the repository: the
    matcher below takes it as a parameter.  A regular expression is
    modelled by what [exec] returns: the match array (index 0 is the
    whole match, index [i] the [i]-th capture group, [None] for a group
    that did not take part), or [None] for [null].  The expressions the
    library builds carry no [g] or [y] flag, so [exec] and [test] have no
    state. *)

Module PathToRegexp.

Record RegExp := { exec : string -> option (list (option string)) }.

Definition test (r : RegExp) (s : string) : bool :=
  match exec r s with Some _ => true | None => false end.

Record Key := { name : string }.

Record t := { regexp : RegExp; keys : list Key }.

End PathToRegexp.

(** ** types.ts *)

Inductive MetaValue :=
  | MStr (s : string)
  | MBool (b : bool)
  | MNum (n : N).

Abbreviation RouteMeta := (gmap string MetaValue).

(** A component is an opaque handle. *)
Definition Component := nat.

(** An absent [children] is the empty list: the router reads the field
    only under [route.children && route.children.length > 0]. *)
#[local] Unset Elimination Schemes.
Inductive IRoute := mkIRoute {
  name : option string;
  path : string;
  component : option Component;
  children : list IRoute;
  redirect : option string;
  meta : option RouteMeta;
}.
#[local] Set Elimination Schemes.

Module MatchedRoute.
Record t := mk {
  route : IRoute;
  path : string;
  params : gmap string string;
  meta : RouteMeta;
}.
End MatchedRoute.

(** [route.meta ?? {}] *)
Definition meta_or_empty (route : IRoute) : RouteMeta := default ∅ (meta route).

(** [route.children && route.children.length > 0] *)
Definition has_children (route : IRoute) : bool :=
  match children route with [] => false | _ :: _ => true end.


(** ** matcher.ts: parameter extraction and route matching *)

Section Matcher.

Variable pathToRegexp : string -> result PathToRegexp.t.

(** [regexpCache] and [keysCache] memoize [pathToRegexp] by template:
    they are filled together and cleared together, and a template that
    fails to compile is not cached, so a lookup through the caches is the
    compiler's answer for the template.  [getRegexp] and [getKeys] are
    these answers; the functions over the caches follow, and the
    properties show that they agree. *)
Definition getRegexp (path : string) : result PathToRegexp.RegExp :=
  c ← pathToRegexp path; Ok (PathToRegexp.regexp c).

Definition getKeys (path : string) : result (list string) :=
  c ← pathToRegexp path; Ok (map PathToRegexp.name (PathToRegexp.keys c)).

(** The two functions as the source has them, over the caches. *)
Record Caches := mkCaches {
  regexpCache : gmap string PathToRegexp.RegExp;
  keysCache : gmap string (list string);
}.

Definition getRegexp_cached (path : string) (c : Caches)
  : result PathToRegexp.RegExp * Caches :=
  match regexpCache c !! path with
  | Some regexp => (Ok regexp, c)
  | None =>
      match pathToRegexp path with
      | Ok p =>
          (Ok (PathToRegexp.regexp p),
           mkCaches (<[path := PathToRegexp.regexp p]> (regexpCache c))
             (<[path := map PathToRegexp.name (PathToRegexp.keys p)]> (keysCache c)))
      | Throw e => (Throw e, c)
      end
  end.

Definition getKeys_cached (path : string) (c : Caches)
  : result (list string) * Caches :=
  match keysCache c !! path with
  | Some keys => (Ok keys, c)
  | None =>
      match getRegexp_cached path c with
      | (Ok _, c') => (Ok (default [] (keysCache c' !! path)), c')
      | (Throw e, c') => (Throw e, c')
      end
  end.

(** [clearMatcherCache] *)
Definition clearMatcherCache (c : Caches) : Caches := mkCaches ∅ ∅.

(** The caches hold answers of the compiler, for the same templates. *)
Definition coherent (c : Caches) : Prop :=
  forall path,
    match regexpCache c !! path, keysCache c !! path with
    | Some regexp, Some keys =>
        exists p, pathToRegexp path = Ok p /\ regexp = PathToRegexp.regexp p /\
                  keys = map PathToRegexp.name (PathToRegexp.keys p)
    | None, None => True
    | _, _ => False
    end.

(** [match[i + 1]] when it is not [undefined]: capture group [i + 1] of a
    match array, absent when the array is shorter or the group did not
    take part in the match. *)
Definition capture (match_ : list (option string)) (i : nat) : option string :=
  mjoin (match_ !! (i + 1)).

(** The loop of [extractParams]: [keys] is what remains of the key list
    from index [i] on, [match_] the match array. *)
Fixpoint extractParams_loop (keys : list string) (i : nat)
    (match_ : list (option string)) (params : gmap string string)
  : result (gmap string string) :=
  match keys with
  | [] => Ok params
  | key :: keys' =>
      match capture match_ i with
      | Some value =>
          decoded ← URI.decodeURIComponent value;
          extractParams_loop keys' (S i) match_ (<[key := decoded]> params)
      | None => extractParams_loop keys' (S i) match_ params
      end
  end.

Definition extractParams (pattern pathname : string)
  : result (gmap string string) :=
  regexp ← getRegexp pattern;
  keys ← getKeys pattern;
  match PathToRegexp.exec regexp pathname with
  | None => Ok ∅
  | Some match_ => extractParams_loop keys 0 match_ ∅
  end.

(** The template of a node under [prefix]. *)
Definition fullPathOf (prefix : string) (route : IRoute) : string :=
  normalizePath
    (if String.eqb prefix "/" then "/" +:+ path route
     else prefix +:+ "/" +:+ path route).

(** [route.path === '/' && prefix === ''] *)
Definition is_root_case (prefix : string) (route : IRoute) : bool :=
  String.eqb (path route) "/" && String.eqb prefix "".

(** One iteration of the loop of [matchRoute], for the node [route].
    The local [matchRoute'] is [matchRoute] itself, for the recursive
    calls on [route.children]. *)
Fixpoint matchRoute_iter (route : IRoute) (normalizedPathname prefix : string)
    {struct route} : result (completion (option MatchedRoute.t)) :=
  let matchRoute' (routes : list IRoute) (pathname prefix' : string) :=
    let normalizedPathname' := normalizePath pathname in
    (fix loop (rs : list IRoute) : result (option MatchedRoute.t) :=
       match rs with
       | [] => Ok None
       | r :: rs' =>
           c ← matchRoute_iter r normalizedPathname' prefix';
           match c with Return v => Ok v | Continue => loop rs' end
       end) routes in
  let children_first (prefix' : string) : result (completion (option MatchedRoute.t)) :=
    if has_children route then
      childMatch ← matchRoute' (children route) normalizedPathname prefix';
      match childMatch with
      | Some m => Ok (Return (Some m))
      | None => Ok Continue
      end
    else Ok Continue in
  let fullPath := fullPathOf prefix route in
  if is_root_case prefix route then
    and_then (children_first "/")
      (if String.eqb normalizedPathname "/" then
         Ok (Return (Some (MatchedRoute.mk route "/" ∅ (meta_or_empty route))))
       else Ok Continue)
  else
    regexp ← getRegexp fullPath;
    let isExactMatch := PathToRegexp.test regexp normalizedPathname in
    if isExactMatch then
      and_then (children_first fullPath)
        (params ← extractParams fullPath normalizedPathname;
         Ok (Return (Some (MatchedRoute.mk route fullPath params (meta_or_empty route)))))
    else children_first fullPath.

Fixpoint matchRoute_loop (routes : list IRoute) (normalizedPathname prefix : string)
  : result (option MatchedRoute.t) :=
  match routes with
  | [] => Ok None
  | route :: routes' =>
      c ← matchRoute_iter route normalizedPathname prefix;
      match c with
      | Return v => Ok v
      | Continue => matchRoute_loop routes' normalizedPathname prefix
      end
  end.

Definition matchRoute (routes : list IRoute) (pathname prefix : string)
  : result (option MatchedRoute.t) :=
  let normalizedPathname := normalizePath pathname in
  matchRoute_loop routes normalizedPathname prefix.

(** The children-first step of [matchRoute], as the loop body runs it
    with [matchRoute] for the recursive call. *)
Definition children_first (route : IRoute) (normalizedPathname prefix' : string)
  : result (completion (option MatchedRoute.t)) :=
  if has_children route then
    childMatch ← matchRoute (children route) normalizedPathname prefix';
    match childMatch with
    | Some m => Ok (Return (Some m))
    | None => Ok Continue
    end
  else Ok Continue.

(** One iteration of the loop of [findMatchingRoutes].  [matches] is the
    array built so far; an iteration that pushes to it returns it. *)
Fixpoint findMatchingRoutes_iter (route : IRoute)
    (normalizedPathname prefix : string) (matches : list MatchedRoute.t)
    {struct route} : result (completion (list MatchedRoute.t)) :=
  let findMatchingRoutes' (routes : list IRoute) (pathname prefix' : string) :=
    let normalizedPathname' := normalizePath pathname in
    (fix loop (rs : list IRoute) (matches' : list MatchedRoute.t)
       : result (list MatchedRoute.t) :=
       match rs with
       | [] => Ok matches'
       | r :: rs' =>
           c ← findMatchingRoutes_iter r normalizedPathname' prefix' matches';
           match c with Return v => Ok v | Continue => loop rs' matches' end
       end) routes [] in
  let fullPath := fullPathOf prefix route in
  if is_root_case prefix route then
    and_then
      (if has_children route then
         childMatches ← findMatchingRoutes' (children route) normalizedPathname "/";
         if (0 <? length childMatches)%nat then
           Ok (Return (matches
                       ++ [MatchedRoute.mk route "/" ∅ (meta_or_empty route)]
                       ++ childMatches)%list)
         else Ok Continue
       else Ok Continue)
      (if String.eqb normalizedPathname "/" then
         Ok (Return (matches ++ [MatchedRoute.mk route "/" ∅ (meta_or_empty route)])%list)
       else Ok Continue)
  else
    regexp ← getRegexp fullPath;
    if PathToRegexp.test regexp normalizedPathname
       || Str.startsWith normalizedPathname fullPath
    then
      params ← extractParams fullPath normalizedPathname;
      let matchedRoute := MatchedRoute.mk route fullPath params (meta_or_empty route) in
      let matches := (matches ++ [matchedRoute])%list in
      if has_children route then
        childMatches ← findMatchingRoutes' (children route) normalizedPathname fullPath;
        Ok (Return (matches ++ childMatches)%list)
      else Ok (Return matches)
    else Ok Continue.

Fixpoint findMatchingRoutes_loop (routes : list IRoute)
    (normalizedPathname prefix : string) (matches : list MatchedRoute.t)
  : result (list MatchedRoute.t) :=
  match routes with
  | [] => Ok matches
  | route :: routes' =>
      c ← findMatchingRoutes_iter route normalizedPathname prefix matches;
      match c with
      | Return v => Ok v
      | Continue => findMatchingRoutes_loop routes' normalizedPathname prefix matches
      end
  end.

Definition findMatchingRoutes (routes : list IRoute) (pathname prefix : string)
  : result (list MatchedRoute.t) :=
  let normalizedPathname := normalizePath pathname in
  findMatchingRoutes_loop routes normalizedPathname prefix [].

(** The inclusion test of [findMatchingRoutes] for a template. *)
Definition on_the_path (c : PathToRegexp.t) (fullPath np : string) : bool :=
  PathToRegexp.test (PathToRegexp.regexp c) np || Str.startsWith np fullPath.

(** A sibling that the traversal passes over: its iteration of the loop
    ends without a [return]. *)
Definition passed_over (prefix np : string) (s : IRoute) : Prop :=
  findMatchingRoutes_iter s np prefix [] = Ok Continue.

(** What holds of a node that [findMatchingRoutes] includes: its
    template is a string prefix of the normalized pathname or matches it. *)
Definition included_by_test (np : string) (m : MatchedRoute.t) : Prop :=
  Str.startsWith np (MatchedRoute.path m) = true \/
  exists c, pathToRegexp (MatchedRoute.path m) = Ok c /\
            PathToRegexp.test (PathToRegexp.regexp c) np = true.

(** What holds of the match that [matchRoute] returns: it is the
    top-level root on the pathname "/", or its template matches. *)
Definition matches_pathname (np : string) (m : MatchedRoute.t) : Prop :=
  (path (MatchedRoute.route m) = "/" /\ MatchedRoute.path m = "/" /\ np = "/") \/
  exists c, pathToRegexp (MatchedRoute.path m) = Ok c /\
            PathToRegexp.test (PathToRegexp.regexp c) np = true.

(** The template [fullPath] compiles and fails on [np]. *)
Definition fails_on (np fullPath : string) : Prop :=
  exists c, pathToRegexp fullPath = Ok c /\
            PathToRegexp.test (PathToRegexp.regexp c) np = false.

(** The templates of a node and of all its descendants, the node being
    placed under [prefix]. *)
Fixpoint templates_under (prefix : string) (r : IRoute) {struct r} : list string :=
  let fullPath := fullPathOf prefix r in
  fullPath ::
    (fix below (rs : list IRoute) : list string :=
       match rs with
       | [] => []
       | c :: cs => (templates_under fullPath c ++ below cs)%list
       end) (children r).

Definition templates_below (prefix : string) (rs : list IRoute) : list string :=
  flat_map (templates_under prefix) rs.

End Matcher.


(** ** A reference instance of the compiler

    [pathToRegexp] on the templates made of '/'-separated segments, each
    either literal text or one parameter [:name], with the library's
    default options: the match is anchored at both ends, tolerates one
    trailing '/', and compares text without regard to ASCII case; a
    parameter takes one nonempty segment.  Used to run the matcher on
    concrete routes.  Templates with other syntax (wildcards, groups,
    escapes, a parameter glued to text) are outside this fragment and
    reported as [Error]; the reserved characters the library rejects are
    a [TypeError] here too. *)

Module PathToRegexpModel.

Inductive Token :=
  | Text (s : string)
  | Param (name : string).

(** [s.split('/')] *)
Fixpoint split_slash (s : string) : list string :=
  match s with
  | EmptyString => [EmptyString]
  | String c s' =>
      if Str.is_slash c then EmptyString :: split_slash s'
      else match split_slash s' with
           | x :: r => String c x :: r
           | [] => [String c EmptyString]
           end
  end.

Definition is_id_start (c : ascii) : bool :=
  Str.is_upper c || Str.is_lower c || Ascii.eqb c "_" || Ascii.eqb c "$".
Definition is_id_continue (c : ascii) : bool := is_id_start c || Str.is_digit c.

Fixpoint all_chars (p : ascii -> bool) (s : string) : bool :=
  match s with
  | EmptyString => true
  | String c s' => p c && all_chars p s'
  end.

(** Characters the library's lexer reserves. *)
Definition is_reserved (c : ascii) : bool :=
  existsb (Ascii.eqb c) ["("; ")"; "["; "]"; "+"; "?"; "!"]%char.
(** Characters that start syntax outside the fragment. *)
Definition is_syntax (c : ascii) : bool :=
  existsb (Ascii.eqb c) ["{"; "}"; "*"; ":"; "\"]%char.
Definition is_plain (c : ascii) : bool :=
  Str.in_range 0 127 c && negb (is_reserved c) && negb (is_syntax c).

Definition unsupported {A} : result A :=
  Throw (Error "template outside the modelled fragment").

(** The character that opens a quoted parameter name. *)
Definition double_quote : ascii := ascii_of_N 34.

Definition parse_segment (seg : string) : result Token :=
  match seg with
  | String ":" nm =>
      match nm with
      | EmptyString => Throw (TypeError "Missing parameter name")
      | String c nm' =>
          if is_id_start c then
            if all_chars is_id_continue nm' then Ok (Param nm)
            else if all_chars (fun c => negb (is_reserved c)) nm' then unsupported
            else Throw (TypeError "Unexpected character")
          else if Ascii.eqb c double_quote then unsupported
          else Throw (TypeError "Missing parameter name")
      end
  | _ =>
      if all_chars is_plain seg then Ok (Text seg)
      else if all_chars (fun c => negb (is_reserved c)) seg then unsupported
      else Throw (TypeError "Unexpected character")
  end.

Fixpoint parse_segments (segs : list string) : result (list Token) :=
  match segs with
  | [] => Ok []
  | seg :: segs' =>
      tok ← parse_segment seg; toks ← parse_segments segs'; Ok (tok :: toks)
  end.

Definition fold_case (c : ascii) : ascii :=
  if Str.is_upper c then ascii_of_N (N_of_ascii c + 32) else c.

Fixpoint eq_nocase (a b : string) : bool :=
  match a, b with
  | EmptyString, EmptyString => true
  | String x a', String y b' =>
      Ascii.eqb (fold_case x) (fold_case y) && eq_nocase a' b'
  | _, _ => false
  end.

(** Matches the segments of a pathname against the tokens; the result is
    the list of captured groups. *)
Fixpoint match_segments (toks : list Token) (segs : list string)
  : option (list (option string)) :=
  match toks, segs with
  | [], [] => Some []
  | Text s :: toks', seg :: segs' =>
      if eq_nocase s seg then match_segments toks' segs' else None
  | Param _ :: toks', seg :: segs' =>
      match seg with
      | EmptyString => None
      | _ => caps ← match_segments toks' segs'; Some (Some seg :: caps)
      end
  | _, _ => None
  end.

Definition exec (toks : list Token) (pathname : string)
  : option (list (option string)) :=
  match split_slash pathname with
  | EmptyString :: segs =>
      let groups :=
        match match_segments toks segs with
        | Some caps => Some caps
        | None =>
            match last segs with
            | Some EmptyString => match_segments toks (removelast segs)
            | _ => None
            end
        end in
      caps ← groups; Some (Some pathname :: caps)
  | _ => None
  end.

Definition keys_of (toks : list Token) : list PathToRegexp.Key :=
  omap (fun t => match t with
                 | Param nm => Some (PathToRegexp.Build_Key nm)
                 | Text _ => None
                 end) toks.

Definition pathToRegexp (template : string) : result PathToRegexp.t :=
  match split_slash template with
  | EmptyString :: segs =>
      toks ← parse_segments segs;
      Ok (PathToRegexp.Build_t (PathToRegexp.Build_RegExp (exec toks)) (keys_of toks))
  | _ => unsupported
  end.

End PathToRegexpModel.


(** ** Route trees used in the examples *)

Definition plain_route (p : string) (cs : list IRoute) : IRoute :=
  mkIRoute None p None cs None None.

Definition child_route : IRoute := plain_route "child" [].
Definition parent_route : IRoute := plain_route "parent" [child_route].
Definition user_route : IRoute := plain_route "user" [].
Definition username_route : IRoute := plain_route "username" [].


(** ** The environment

    The browser's location, the module-level singletons of the router
    (the active adapter, the guard and hook registries, the shared URL
    state) and the trace of observable calls. *)

Record Location := mkLocation {
  origin : string;
  pathname : string;
  search : string;
  hash : string;
}.

(** [window.location.href] *)
Definition href (l : Location) : string :=
  origin l +:+ pathname l +:+ search l +:+ hash l.

Inductive NavigationGuardResult :=
  | GTrue
  | GFalse
  | GString (s : string)
  | GVoid.

(** What calling a user function yields: the value it returns or the
    error it throws; for a guard, which is awaited, also the value its
    promise resolves to or the error it rejects with. *)
Inductive Outcome (A : Type) :=
  | Returns (v : A)
  | Raises (e : JsError).
Arguments Returns {A} v.
Arguments Raises {A} e.

(** Guards and hooks are functions; [guard_id] and [hook_id] stand for
    their identity as objects. *)
Record NavigationGuard := mkGuard {
  guard_id : nat;
  guard_fn : string -> string -> Outcome NavigationGuardResult;
}.

Record AfterEachHook := mkHook {
  hook_id : nat;
  hook_fn : string -> string -> Outcome unit;
}.

Inductive IRouterModeAdapter :=
  | History (base : string)
  | Hash.

Inductive Event :=
  | GuardCalled (id : nat) (from to : string)
  | HookCalled (id : nat) (from to : string)
  | ConsoleError (msg : string) (err : JsError)
  | AdapterPush (path search : string)
  | AdapterReplace (path search : string).

Record World := mkWorld {
  location : Location;
  currentAdapter : option IRouterModeAdapter;
  routerState_href : string;
  beforeGuards : list NavigationGuard;
  afterHooks : list AfterEachHook;
  events : list Event;
}.

Definition set_location (l : Location) (w : World) : World :=
  mkWorld l (currentAdapter w) (routerState_href w) (beforeGuards w)
    (afterHooks w) (events w).
Definition set_currentAdapter (a : option IRouterModeAdapter) (w : World) : World :=
  mkWorld (location w) a (routerState_href w) (beforeGuards w)
    (afterHooks w) (events w).
Definition set_routerState_href (h : string) (w : World) : World :=
  mkWorld (location w) (currentAdapter w) h (beforeGuards w)
    (afterHooks w) (events w).
Definition set_beforeGuards (gs : list NavigationGuard) (w : World) : World :=
  mkWorld (location w) (currentAdapter w) (routerState_href w) gs
    (afterHooks w) (events w).
Definition set_afterHooks (hs : list AfterEachHook) (w : World) : World :=
  mkWorld (location w) (currentAdapter w) (routerState_href w) (beforeGuards w)
    hs (events w).
Definition log (es : list Event) (w : World) : World :=
  mkWorld (location w) (currentAdapter w) (routerState_href w) (beforeGuards w)
    (afterHooks w) (events w ++ es).

(** ** The monad of the router's stateful code

    A computation runs in a world and either never completes ([None]: an
    [await] chain that does not end) or completes with a value or a
    thrown error, in a new world. *)

Definition M (A : Type) : Type := World -> option (result A * World).

#[global] Instance M_ret : MRet M := fun A a w => Some (Ok a, w).
#[global] Instance M_bind : MBind M := fun A B f m w =>
  match m w with
  | Some (Ok a, w') => f a w'
  | Some (Throw e, w') => Some (Throw e, w')
  | None => None
  end.

Definition throw {A} (e : JsError) : M A := fun w => Some (Throw e, w).
Definition diverge {A} : M A := fun _ => None.
Definition get_world : M World := fun w => Some (Ok w, w).
Definition modify (f : World -> World) : M unit := fun w => Some (Ok tt, f w).
Definition emit (e : Event) : M unit := modify (log [e]).

(** [try { body } catch (error) { handler error }] *)
Definition try_catch {A} (body : M A) (handler : JsError -> M A) : M A :=
  fun w =>
    match body w with
    | Some (Throw e, w') => handler e w'
    | r => r
    end.

(** Calling a user function. *)
Definition call {A} (o : Outcome A) : M A :=
  match o with
  | Returns v => mret v
  | Raises e => throw e
  end.

(** [console.error(msg, error)] *)
Definition console_error (msg : string) (error : JsError) : M unit :=
  emit (ConsoleError msg error).

(** ** guards.ts *)

(** [array.indexOf(f)] followed by [array.splice(index, 1)]: the first
    entry that is the function [f] is removed. *)
Fixpoint remove_guard (id : nat) (gs : list NavigationGuard) : list NavigationGuard :=
  match gs with
  | [] => []
  | g :: gs' => if Nat.eqb (guard_id g) id then gs' else g :: remove_guard id gs'
  end.

Fixpoint remove_hook (id : nat) (hs : list AfterEachHook) : list AfterEachHook :=
  match hs with
  | [] => []
  | h :: hs' => if Nat.eqb (hook_id h) id then hs' else h :: remove_hook id hs'
  end.

(** [beforeEach(guard)] appends the guard to the registry and returns
    the function that removes it. *)
Definition beforeEach (guard : NavigationGuard) : M (M unit) :=
  modify (fun w => set_beforeGuards (beforeGuards w ++ [guard]) w);;
  mret (modify (fun w =>
          set_beforeGuards (remove_guard (guard_id guard) (beforeGuards w)) w)).

Definition afterEach (hook : AfterEachHook) : M (M unit) :=
  modify (fun w => set_afterHooks (afterHooks w ++ [hook]) w);;
  mret (modify (fun w =>
          set_afterHooks (remove_hook (hook_id hook) (afterHooks w)) w)).

(** What [runGuards] returns: [boolean | string]. *)
Inductive GuardsResult :=
  | RBool (b : bool)
  | RString (s : string).

Definition guard_error_msg : string := "[Router] Error in beforeEach guard:".
Definition hook_error_msg : string := "[Router] Error in afterEach hook:".

(** The loop of [runGuards] over the guards that remain. *)
Fixpoint runGuards_loop (guards : list NavigationGuard) (from to : string)
  : M GuardsResult :=
  match guards with
  | [] => mret (RBool true)
  | guard :: guards' =>
      c ← try_catch
            (result ← (emit (GuardCalled (guard_id guard) from to);;
                       call (guard_fn guard from to));
             match result with
             | GFalse => mret (Return (RBool false))
             | GString s => mret (Return (RString s))
             | GTrue | GVoid => mret Continue
             end)
            (fun error =>
               console_error guard_error_msg error;;
               mret (Return (RBool false)));
      match c with
      | Return v => mret v
      | Continue => runGuards_loop guards' from to
      end
  end.

Definition runGuards (from to : string) : M GuardsResult :=
  w ← get_world; runGuards_loop (beforeGuards w) from to.

Fixpoint runAfterHooks_loop (hooks : list AfterEachHook) (from to : string)
  : M unit :=
  match hooks with
  | [] => mret tt
  | hook :: hooks' =>
      try_catch
        (emit (HookCalled (hook_id hook) from to);;
         call (hook_fn hook from to))
        (fun error => console_error hook_error_msg error);;
      runAfterHooks_loop hooks' from to
  end.

Definition runAfterHooks (from to : string) : M unit :=
  w ← get_world; runAfterHooks_loop (afterHooks w) from to.

(** [clearGuards] *)
Definition clearGuards : M unit :=
  modify (fun w => set_afterHooks [] (set_beforeGuards [] w)).


(** ** router-mode.ts *)

(** The part of [s] before the first occurrence of the character [c],
    and the rest from that character on. *)
Fixpoint break_at (c : ascii) (s : string) : string * string :=
  match s with
  | EmptyString => (EmptyString, EmptyString)
  | String x s' =>
      if Ascii.eqb x c then (EmptyString, s)
      else let '(a, b) := break_at c s' in (String x a, b)
  end.

(** The location that the browser shows for a same-origin URL built by an
    adapter, on URLs that the URL parser leaves as they are (no dot
    segments, no characters to escape): the fragment starts at the first
    '#', the query at the first '?' before it; a bare '?' or '#' reads
    back as the empty string. *)
Definition location_of_url (org url : string) : Location :=
  let rest := Str.drop (String.length org) url in
  let '(before, fragment) := break_at "#" rest in
  let '(path, query) := break_at "?" before in
  mkLocation org path
    (if String.eqb query "?" then "" else query)
    (if String.eqb fragment "#" then "" else fragment).

(** [window.location.hash = value] *)
Definition location_set_hash (value : string) (l : Location) : Location :=
  let fragment :=
    match value with
    | String "#" v => v
    | _ => value
    end in
  mkLocation (origin l) (pathname l) (search l)
    (if String.eqb fragment "" then "" else "#" +:+ fragment).

(** [new HistoryModeAdapter(base)] *)
Definition HistoryModeAdapter (base : string) : IRouterModeAdapter :=
  History (Str.strip_trailing_slash base).

(** [new HashModeAdapter(_base)] *)
Definition HashModeAdapter (_base : string) : IRouterModeAdapter := Hash.

(** [s || '/'] *)
Definition or_root (s : string) : string :=
  if String.eqb s "" then "/" else s.

Definition getCurrentPath (a : IRouterModeAdapter) (l : Location) : string :=
  match a with
  | History base =>
      let pathname := pathname l in
      let path :=
        if negb (String.eqb base "") then Str.remove_first base pathname
        else pathname in
      or_root path
  | Hash =>
      let hash := Str.drop 1 (hash l) in
      let path := fst (break_at "?" hash) in
      or_root path
  end.

Definition getCurrentSearch (a : IRouterModeAdapter) (l : Location) : string :=
  match a with
  | History _ => search l
  | Hash => snd (break_at "?" (Str.drop 1 (hash l)))
  end.

Definition buildUrl (a : IRouterModeAdapter) (l : Location) (path search : string)
  : string :=
  match a with
  | History base => origin l +:+ base +:+ path +:+ search
  | Hash => origin l +:+ pathname l +:+ "#" +:+ path +:+ search
  end.

(** The location after [adapter.push(path, search)]: [history.pushState]
    with the built URL in history mode, an assignment to [location.hash]
    in hash mode. *)
Definition location_after_push (a : IRouterModeAdapter) (l : Location)
    (path search : string) : Location :=
  match a with
  | History _ => location_of_url (origin l) (buildUrl a l path search)
  | Hash => location_set_hash (path +:+ search) l
  end.

(** The location after [adapter.replace(path, search)]:
    [history.replaceState] with the built URL, in both modes. *)
Definition location_after_replace (a : IRouterModeAdapter) (l : Location)
    (path search : string) : Location :=
  location_of_url (origin l) (buildUrl a l path search).

Definition adapter_push (a : IRouterModeAdapter) (path search : string) : M unit :=
  emit (AdapterPush path search);;
  modify (fun w => set_location (location_after_push a (location w) path search) w).

Definition adapter_replace (a : IRouterModeAdapter) (path search : string) : M unit :=
  emit (AdapterReplace path search);;
  modify (fun w => set_location (location_after_replace a (location w) path search) w).

Inductive RouterMode := ModeHash | ModeHistory.

Definition createRouterMode (mode : RouterMode) (base : option string)
  : M IRouterModeAdapter :=
  let base := default "" base in
  let adapter :=
    match mode with
    | ModeHash => HashModeAdapter base
    | ModeHistory => HistoryModeAdapter base
    end in
  modify (set_currentAdapter (Some adapter));;
  mret adapter.

Definition getRouterMode : M IRouterModeAdapter :=
  w ← get_world;
  match currentAdapter w with
  | Some adapter => mret adapter
  | None =>
      let adapter := HistoryModeAdapter "" in
      modify (set_currentAdapter (Some adapter));;
      mret adapter
  end.

(** The adapter that [getRouterMode] returns in a world. *)
Definition active_adapter (w : World) : IRouterModeAdapter :=
  default (HistoryModeAdapter "") (currentAdapter w).

(** ** navigation.ts *)

Inductive QueryValue :=
  | QString (s : string)
  | QNumber (shown : string)   (* a number, carried as [String(value)] *)
  | QBoolean (b : bool)
  | QUndefined
  | QNull.

(** The entries of a query object, in the order of [Object.entries]. *)
Definition QueryParams := list (string * QueryValue).

Definition hex_digit (n : N) : ascii :=
  ascii_of_N (if (n <? 10)%N then 48 + n else 55 + n).

(** Characters that [encodeURIComponent] leaves as they are. *)
Definition is_unreserved (c : ascii) : bool :=
  Str.is_upper c || Str.is_lower c || Str.is_digit c
  || existsb (Ascii.eqb c) ["-"; "_"; "."; "!"; "~"; "*"; "'"; "("; ")"]%char.

Fixpoint encodeURIComponent (s : string) : string :=
  match s with
  | EmptyString => EmptyString
  | String c s' =>
      if is_unreserved c then String c (encodeURIComponent s')
      else
        let n := N_of_ascii c in
        String "%" (String (hex_digit (n / 16)) (String (hex_digit (n mod 16))
          (encodeURIComponent s')))
  end.

(** [String(value)] for the values that are kept. *)
Definition show_value (v : QueryValue) : string :=
  match v with
  | QString s => s
  | QNumber shown => shown
  | QBoolean true => "true"
  | QBoolean false => "false"
  | QUndefined => "undefined"
  | QNull => "null"
  end.

Definition is_present (v : QueryValue) : bool :=
  match v with
  | QUndefined | QNull => false
  | _ => true
  end.

(** [entries.join('&')] *)
Fixpoint join_amp (entries : list string) : string :=
  match entries with
  | [] => ""
  | [e] => e
  | e :: es => e +:+ "&" +:+ join_amp es
  end.

Definition buildSearchString (query : option QueryParams) : string :=
  match query with
  | None => ""
  | Some query =>
      let entries :=
        map (fun '(key, value) =>
               encodeURIComponent key +:+ "=" +:+ encodeURIComponent (show_value value))
            (filter (fun '(_, value) => is_present value = true) query) in
      if (0 <? length entries)%nat then "?" +:+ join_amp entries else ""
  end.

Definition getCurrentPathname : M string :=
  adapter ← getRouterMode;
  w ← get_world;
  mret (getCurrentPath adapter (location w)).

(** [routerState.href = window.location.href] *)
Definition update_routerState : M unit :=
  modify (fun w => set_routerState_href (href (location w)) w).

(** [push(to, query)].  The recursion on a redirect need not end: [fuel]
    bounds the number of nested calls, and a run that exhausts it has no
    result. *)
Fixpoint push (fuel : nat) (to : string) (query : option QueryParams) : M bool :=
  match fuel with
  | O => diverge
  | S fuel' =>
      adapter ← getRouterMode;
      from ← getCurrentPathname;
      guardResult ← runGuards from to;
      match guardResult with
      | RBool false => mret false
      | RString redirect => push fuel' redirect (Some [])
      | RBool true =>
          let search := buildSearchString query in
          adapter_push adapter to search;;
          update_routerState;;
          runAfterHooks from to;;
          mret true
      end
  end.

Fixpoint replace (fuel : nat) (to : string) (query : option QueryParams) : M bool :=
  match fuel with
  | O => diverge
  | S fuel' =>
      adapter ← getRouterMode;
      from ← getCurrentPathname;
      guardResult ← runGuards from to;
      match guardResult with
      | RBool false => mret false
      | RString redirect => replace fuel' redirect (Some [])
      | RBool true =>
          let search := buildSearchString query in
          adapter_replace adapter to search;;
          update_routerState;;
          runAfterHooks from to;;
          mret true
      end
  end.


(** ** Traces

    What the guard and hook pipelines add to the trace, as plain lists. *)

Definition guard_calls (gs : list NavigationGuard) (from to : string) : list Event :=
  map (fun g => GuardCalled (guard_id g) from to) gs.

(** A guard that lets the navigation go on: it returns [true] or nothing. *)
Definition affirmative (from to : string) (g : NavigationGuard) : Prop :=
  guard_fn g from to = Returns GTrue \/ guard_fn g from to = Returns GVoid.

Definition hooks_trace (hs : list AfterEachHook) (from to : string) : list Event :=
  flat_map (fun h =>
              HookCalled (hook_id h) from to ::
              match hook_fn h from to with
              | Returns _ => []
              | Raises e => [ConsoleError hook_error_msg e]
              end) hs.

(** Events by which a navigation touches the environment: a call of the
    adapter's [push] or [replace], or an after-hook. *)
Definition touches_environment (e : Event) : bool :=
  match e with
  | AdapterPush _ _ | AdapterReplace _ _ | HookCalled _ _ _ => true
  | GuardCalled _ _ _ | ConsoleError _ _ => false
  end.

(** ** Guards used in the examples *)

Definition allow_guard (id : nat) : NavigationGuard :=
  mkGuard id (fun _ _ => Returns GTrue).
Definition cancel_guard (id : nat) : NavigationGuard :=
  mkGuard id (fun _ _ => Returns GFalse).
Definition throwing_guard (id : nat) (e : JsError) : NavigationGuard :=
  mkGuard id (fun _ _ => Raises e).
(** [(from, to) => '/login'] *)
Definition always_login_guard (id : nat) : NavigationGuard :=
  mkGuard id (fun _ _ => Returns (GString "/login")).
(** [(from, to) => to === '/login' ? true : '/login'] *)
Definition login_guard (id : nat) : NavigationGuard :=
  mkGuard id (fun _ to =>
    if String.eqb to "/login" then Returns GTrue else Returns (GString "/login")).

Definition example_location : Location :=
  mkLocation "https://example.com" "/app/users/1" "" "".

(** A page at "/app/users/1" with no adapter created yet, no guards, no
    hooks. *)
Definition fresh_world : World :=
  mkWorld example_location None (href example_location) [] [] [].

Definition recording_hook (id : nat) : AfterEachHook :=
  mkHook id (fun _ _ => Returns tt).


(** ** Segments of a path

    The view of a path as its list of nonempty '/'-separated segments,
    used to say what [normalizePath] and the full path of a node are. *)

Definition nonempty (s : string) : bool := negb (String.eqb s "").

(** The nonempty pieces of [s.split('/')]. *)
Definition segments (s : string) : list string :=
  List.filter nonempty (PathToRegexpModel.split_slash s).

(** [segs.join('/')] *)
Fixpoint join_slash (segs : list string) : string :=
  match segs with
  | [] => ""
  | [s] => s
  | s :: rest => s +:+ "/" +:+ join_slash rest
  end.

(** The nodes of a forest placed under [prefix], each with its resolved
    full path, in depth-first order. *)
Fixpoint nodes_under (prefix : string) (r : IRoute) {struct r}
  : list (IRoute * string) :=
  let fullPath := fullPathOf prefix r in
  (r, fullPath) ::
    (fix below (rs : list IRoute) : list (IRoute * string) :=
       match rs with
       | [] => []
       | c :: cs => (nodes_under fullPath c ++ below cs)%list
       end) (children r).

Definition nodes_below (prefix : string) (rs : list IRoute)
  : list (IRoute * string) :=
  flat_map (nodes_under prefix) rs.


(** A list of matches that runs from a node of [routes] down through
    children: each match is a node of the current level with its full
    path under the current prefix, and the next match is looked for
    among its children under that full path. *)
Fixpoint root_to_leaf (prefix : string) (routes : list IRoute)
    (ms : list MatchedRoute.t) : Prop :=
  match ms with
  | [] => True
  | m :: ms' =>
      In (MatchedRoute.route m) routes /\
      MatchedRoute.path m = fullPathOf prefix (MatchedRoute.route m) /\
      MatchedRoute.meta m = meta_or_empty (MatchedRoute.route m) /\
      root_to_leaf (MatchedRoute.path m) (children (MatchedRoute.route m)) ms'
  end.


(** ** More traces *)

Definition hook_calls (hs : list AfterEachHook) (from to : string) : list Event :=
  map (fun h => HookCalled (hook_id h) from to) hs.

Definition is_hook_call (e : Event) : bool :=
  match e with
  | HookCalled _ _ _ => true
  | _ => false
  end.

(** [getBeforeGuardsCount] and [getAfterHooksCount] *)
Definition getBeforeGuardsCount : M nat :=
  w ← get_world; mret (length (beforeGuards w)).
Definition getAfterHooksCount : M nat :=
  w ← get_world; mret (length (afterHooks w)).




(** ** Paths and search strings that a URL carries unchanged

    The URL parser escapes some characters, resolves "." and ".."
    segments, and ends the path at '?' and the query at '#'.  A plain path
    starts with '/', is made of letters, digits and "-_~./", and has no
    dot segment; a plain search string is empty, or a '?' followed by at
    least one of the characters that [encodeURIComponent] produces other
    than the apostrophe, '=' and '&'. *)

Definition chars_all (f : ascii -> bool) (s : string) : bool :=
  forallb f (list_ascii_of_string s).

Definition is_path_char (c : ascii) : bool :=
  Str.is_upper c || Str.is_lower c || Str.is_digit c
  || existsb (Ascii.eqb c) ["-"; "_"; "~"; "."; "/"]%char.

Definition is_dot_segment (s : string) : bool :=
  String.eqb s "." || String.eqb s "..".

Definition plain_path (p : string) : bool :=
  Str.starts_with_slash p && chars_all is_path_char p
  && negb (existsb is_dot_segment (segments p)).

Definition is_search_char (c : ascii) : bool :=
  Str.is_upper c || Str.is_lower c || Str.is_digit c
  || existsb (Ascii.eqb c)
       ["-"; "_"; "~"; "."; "!"; "*"; "("; ")"; "%"; "="; "&"]%char.

Definition plain_search (s : string) : bool :=
  match s with
  | EmptyString => true
  | String c q =>
      Ascii.eqb c "?" && negb (String.eqb q "") && chars_all is_search_char q
  end.

(** What is asked of the adapter and the page for a navigation to read
    back: a history base that is empty or a plain path; in hash mode, a
    page whose own path is plain. *)
Definition plain_adapter (a : IRouterModeAdapter) (l : Location) : bool :=
  match a with
  | History base => String.eqb base "" || plain_path base
  | Hash => plain_path (pathname l)
  end.


(** [resetRouterMode] *)
Definition resetRouterMode : M unit :=
  modify (set_currentAdapter None).

(** The number of occurrences of the character [c] in [s]. *)
Definition count_char (c : ascii) (s : string) : nat :=
  length (List.filter (Ascii.eqb c) (list_ascii_of_string s)).

(** The entries of a query that [buildSearchString] keeps. *)
Definition present_entries (query : option QueryParams) : QueryParams :=
  filter (fun '(_, value) => is_present value = true) (default [] query).

(** What [encodeURIComponent] puts out: the characters it keeps, and the
    '%' of an escape. *)
Definition is_encoded_char (c : ascii) : bool :=
  is_unreserved c || Ascii.eqb c "%".

(** The characters of the body of a search string: those of the encoded
    keys and values, '=' and '&'. *)
Definition is_built_char (c : ascii) : bool :=
  is_encoded_char c || Ascii.eqb c "=" || Ascii.eqb c "&".


(** ** Histories of the matcher's caches

    The calls that reach the two caches, and the caches after a sequence
    of them, from the empty maps the module starts with. *)

Inductive CacheCall :=
  | CallGetRegexp (path : string)
  | CallGetKeys (path : string)
  | CallClearMatcherCache.

Section CacheHistory.

Variable pathToRegexp : string -> result PathToRegexp.t.

Definition cache_step (c : Caches) (call : CacheCall) : Caches :=
  match call with
  | CallGetRegexp path => snd (getRegexp_cached pathToRegexp path c)
  | CallGetKeys path => snd (getKeys_cached pathToRegexp path c)
  | CallClearMatcherCache => clearMatcherCache c
  end.

Definition caches_after (calls : list CacheCall) : Caches :=
  fold_left cache_step calls (mkCaches ∅ ∅).

End CacheHistory.


(** ** utils *)

(** [s.replace(/\/\//, '/')]: the first "//" becomes "/". *)
Fixpoint replace_first_double_slash (s : string) : string :=
  match s with
  | EmptyString => EmptyString
  | String c s' =>
      if Str.is_slash c && Str.starts_with_slash s' then s'
      else String c (replace_first_double_slash s')
  end.

(** The loop of [pathname2paths]: [paths] is what remains of the pieces,
    [result] the entries pushed so far. *)
Fixpoint pathname2paths_loop (paths : list string) (result : list string)
  : list string :=
  match paths with
  | [] => result
  | p :: paths' =>
      pathname2paths_loop paths'
        (result ++ [replace_first_double_slash
                      (default "" (last result) +:+ "/" +:+ p)])
  end.

Definition pathname2paths (pathname : string) : list string :=
  pathname2paths_loop (PathToRegexpModel.split_slash pathname) [].

(** [memoize(fn)], called with [arg] when the cache is [cache]: the
    result and the cache afterwards. *)
Definition memoize {R : Type} (fn : string -> R) (arg : string)
    (cache : gmap string R) : R * gmap string R :=
  match cache !! arg with
  | Some result => (result, cache)
  | None => let result := fn arg in (result, <[arg := result]> cache)
  end.

(** The cache of a memoized function after calls with [args], from the
    empty map. *)
Definition memo_after {R : Type} (fn : string -> R) (args : list string)
  : gmap string R :=
  fold_left (fun cache arg => snd (memoize fn arg cache)) args ∅.

Section MatchPath.

Variable pathToRegexp : string -> result PathToRegexp.t.

(** [matchPath(regPath, realPath)], with the cache of
    [memoizePathname2paths] passed along. *)
Definition matchPath (regPath realPath : string) (cache : gmap string (list string))
  : M (bool * gmap string (list string)) :=
  if String.eqb regPath "/" then mret (true, cache)
  else
    match pathToRegexp regPath with
    | Throw e => throw e
    | Ok compiled =>
        let reg := PathToRegexp.regexp compiled in
        adapter ← getRouterMode;
        w ← get_world;
        let currentPath := getCurrentPath adapter (location w) in
        let '(paths, cache') := memoize pathname2paths currentPath cache in
        mret (existsb (fun path =>
                         match PathToRegexp.exec reg path with
                         | Some _ => true
                         | None => false
                         end) paths,
              cache')
    end.

End MatchPath.

(** The prefixes of a path that [pathname2paths] lists: for each number
    of leading pieces, the pieces joined behind a '/', with runs of
    slashes collapsed. *)
Definition prefix_path (pieces : list string) (k : nat) : string :=
  Str.collapse_slashes ("/" +:+ join_slash (take k pieces)).

(** * Properties *)

(** ** Strings *)

Module StrFacts.
Import Str.

Lemma drop_last_cons c c' s :
  drop_last (String c (String c' s)) = String c (drop_last (String c' s)).
Proof. reflexivity. Qed.

Lemma has_double_slash_cons c s :
  has_double_slash (String c s) =
  (is_slash c && starts_with_slash s) || has_double_slash s.
Proof. reflexivity. Qed.

Lemma starts_with_slash_collapse s :
  starts_with_slash (collapse_slashes s) = starts_with_slash s.
Proof.
  induction s as [|c s IH]; simpl; [reflexivity|].
  destruct (is_slash c) eqn:Hc; simpl.
  - destruct (starts_with_slash s) eqn:Hs; simpl; [now rewrite IH | exact Hc].
  - exact Hc.
Qed.

Lemma has_double_slash_collapse s :
  has_double_slash (collapse_slashes s) = false.
Proof.
  induction s as [|c s IH]; simpl; [reflexivity|].
  destruct (is_slash c && starts_with_slash s) eqn:Hcs; [exact IH|].
  simpl. rewrite starts_with_slash_collapse, Hcs, IH. reflexivity.
Qed.

Lemma collapse_fixed s :
  has_double_slash s = false -> collapse_slashes s = s.
Proof.
  induction s as [|c s IH]; simpl; [reflexivity|].
  intros [H1 H2]%orb_false_iff. rewrite H1, IH; auto.
Qed.

Lemma collapse_nonempty s : s <> "" -> collapse_slashes s <> "".
Proof.
  induction s as [|c s IH]; simpl; [congruence|]. intros _.
  destruct (is_slash c && starts_with_slash s) eqn:Hcs; [|discriminate].
  apply IH. apply andb_true_iff in Hcs as [_ Hs]. now destruct s.
Qed.


Lemma drop_last_double_slash s :
  has_double_slash s = false -> has_double_slash (drop_last s) = false.
Proof.
  induction s as [|c s IH]; [reflexivity|].
  destruct s as [|c' s']; [reflexivity|].
  rewrite drop_last_cons, !(has_double_slash_cons c).
  intros [H1 H2]%orb_false_iff. rewrite (IH H2), orb_false_r.
  destruct (is_slash c); [|reflexivity]. simpl in H1. simpl andb.
  destruct s'; [reflexivity | exact H1].
Qed.

Lemma drop_last_starts s :
  (1 < String.length s)%nat ->
  starts_with_slash (drop_last s) = starts_with_slash s.
Proof. destruct s as [|c [|c' s']]; simpl; [lia|lia|reflexivity]. Qed.

Lemma drop_last_not_ends s :
  (1 < String.length s)%nat -> has_double_slash s = false ->
  ends_with_slash s = true -> ends_with_slash (drop_last s) = false.
Proof.
  induction s as [|c s IH]; simpl; [lia|].
  destruct s as [|c' s']; [simpl; lia|]. intros _.
  destruct s' as [|c'' s''].
  - simpl. intros H1 H2. rewrite H2 in H1. simpl in H1.
    rewrite orb_false_r, andb_true_r in H1. exact H1.
  - intros [H1 H2]%orb_false_iff H3.
    change (ends_with_slash (String c' (drop_last (String c'' s''))) = false).
    specialize (IH ltac:(simpl; lia) H2 H3).
    remember (String c'' s'') as t. destruct (drop_last (String c' t)) eqn:E.
    + subst t. discriminate E.
    + subst t. simpl in E. injection E as <- <-. exact IH.
Qed.

Lemma short_slash s :
  starts_with_slash s = true -> (1 <? String.length s)%nat = false -> s = "/".
Proof.
  destruct s as [|c [|c' s']]; simpl; try discriminate.
  intros H _. unfold is_slash in H. apply Ascii.eqb_eq in H. now subst.
Qed.

End StrFacts.

(** ** Path normalization *)

Section NormalizePath.
Import Str StrFacts.

Example normalizePath_doc1 : normalizePath "//users//123" = "/users/123".
Proof. reflexivity. Qed.
Example normalizePath_doc2 : normalizePath "users/123" = "/users/123".
Proof. reflexivity. Qed.
Example normalizePath_doc3 : normalizePath "/" = "/".
Proof. reflexivity. Qed.

Lemma normalizePath_normal p : normal (normalizePath p).
Proof.
  unfold normalizePath.
  destruct (String.eqb p "" || String.eqb p "/") eqn:Hp.
  { repeat split; auto. }
  pose proof (has_double_slash_collapse p) as H.
  generalize dependent (collapse_slashes p). intros c H.
  change ("/" +:+ c) with (String slash c).
  set (c' := if negb (starts_with_slash c) then String slash c else c).
  assert (Hs : starts_with_slash c' = true).
  { unfold c'. destruct (starts_with_slash c) eqn:E; simpl; auto. }
  assert (Hd : has_double_slash c' = false).
  { unfold c'. destruct (starts_with_slash c) eqn:E; simpl; auto.
    rewrite E, H. reflexivity. }
  clearbody c'.
  destruct (1 <? String.length c')%nat eqn:Hl; simpl.
  - destruct (ends_with_slash c') eqn:He.
    + apply Nat.ltb_lt in Hl. repeat split.
      * now rewrite drop_last_starts.
      * now apply drop_last_double_slash.
      * left. now apply drop_last_not_ends.
    + repeat split; auto.
  - repeat split; auto. right. now apply short_slash.
Qed.

Lemma normalizePath_fixed n : normal n -> normalizePath n = n.
Proof.
  intros (Hs & Hd & He). unfold normalizePath.
  destruct (String.eqb n "") eqn:E1.
  { apply String.eqb_eq in E1. subst. discriminate Hs. }
  destruct (String.eqb n "/") eqn:E2.
  { apply String.eqb_eq in E2. subst. reflexivity. }
  simpl. rewrite (collapse_fixed n Hd), Hs. simpl.
  destruct He as [He | ->]; [|discriminate E2].
  rewrite He, andb_false_r. reflexivity.
Qed.

Lemma normalizePath_idempotent p :
  normalizePath (normalizePath p) = normalizePath p.
Proof. apply normalizePath_fixed, normalizePath_normal. Qed.

Lemma normalizePath_starts p : Str.startsWith (normalizePath p) "/" = true.
Proof.
  destruct (normalizePath_normal p) as (Hs & _). unfold Str.startsWith.
  destruct (normalizePath p) as [|c s]; [discriminate|]. simpl in Hs.
  unfold Str.is_slash in Hs. apply Ascii.eqb_eq in Hs. subst c. simpl. now destruct s.
Qed.

End NormalizePath.


(** ** Route matching *)

Section MatcherFacts.

Variable ptr : string -> result PathToRegexp.t.

(** The caches are transparent: from coherent caches, the cached
    functions give the answers of [getRegexp] and [getKeys] and leave the
    caches coherent; cleared caches are coherent. *)
Lemma clearMatcherCache_coherent c : coherent ptr (clearMatcherCache c).
Proof. intros path. simpl. now rewrite !lookup_empty. Qed.

Lemma getRegexp_cached_transparent path c :
  coherent ptr c ->
  fst (getRegexp_cached ptr path c) = getRegexp ptr path /\
  coherent ptr (snd (getRegexp_cached ptr path c)).
Proof.
  intros Hc. unfold getRegexp_cached, getRegexp. pose proof (Hc path) as Hp.
  destruct (regexpCache c !! path) as [re|] eqn:Hre.
  - destruct (keysCache c !! path) as [ks|]; [|contradiction].
    destruct Hp as (p & -> & -> & _). split; [reflexivity | exact Hc].
  - destruct (ptr path) as [p|e] eqn:Hptr; simpl; [|split; [reflexivity | exact Hc]].
    split; [reflexivity|]. intros q. simpl.
    destruct (decide (path = q)) as [<-|Hne].
    + rewrite !lookup_insert_eq. eauto.
    + rewrite !lookup_insert_ne by exact Hne. apply Hc.
Qed.

Lemma getKeys_cached_transparent path c :
  coherent ptr c ->
  fst (getKeys_cached ptr path c) = getKeys ptr path /\
  coherent ptr (snd (getKeys_cached ptr path c)).
Proof.
  intros Hc. unfold getKeys_cached, getKeys. pose proof (Hc path) as Hp.
  destruct (keysCache c !! path) as [ks|] eqn:Hks.
  - destruct (regexpCache c !! path) as [re|]; [|contradiction].
    destruct Hp as (p & -> & _ & ->). split; [reflexivity | exact Hc].
  - destruct (regexpCache c !! path) as [re|] eqn:Hre; [contradiction|].
    destruct (getRegexp_cached_transparent path c Hc) as [_ Hc'].
    unfold getRegexp_cached in *. rewrite Hre in *.
    destruct (ptr path) as [p|e]; simpl in *; [|split; [reflexivity | exact Hc]].
    rewrite lookup_insert_eq. split; [reflexivity | exact Hc'].
Qed.

Lemma matchRoute_local_loop rs p q :
  (fix loop (rs : list IRoute) : result (option MatchedRoute.t) :=
     match rs with
     | [] => Ok None
     | r :: rs' =>
         c ← matchRoute_iter ptr r p q;
         match c with Return v => Ok v | Continue => loop rs' end
     end) rs = matchRoute_loop ptr rs p q.
Proof.
  induction rs as [|r rs IH]; [reflexivity|].
  cbn [matchRoute_loop]. rewrite <- IH. reflexivity.
Qed.

(** The loop body of [matchRoute], with the recursive calls spelled
    [matchRoute]. *)
Lemma matchRoute_iter_unfold route np prefix :
  matchRoute_iter ptr route np prefix =
  let fullPath := fullPathOf prefix route in
  if is_root_case prefix route then
    and_then (children_first ptr route np "/")
      (if String.eqb np "/" then
         Ok (Return (Some (MatchedRoute.mk route "/" ∅ (meta_or_empty route))))
       else Ok Continue)
  else
    regexp ← getRegexp ptr fullPath;
    if PathToRegexp.test regexp np then
      and_then (children_first ptr route np fullPath)
        (params ← extractParams ptr fullPath np;
         Ok (Return (Some (MatchedRoute.mk route fullPath params (meta_or_empty route)))))
    else children_first ptr route np fullPath.
Proof.
  destruct route as [nm pth cmp cs rd mt].
  cbn [matchRoute_iter]. unfold children_first, matchRoute.
  rewrite !matchRoute_local_loop. reflexivity.
Qed.

Lemma findMatchingRoutes_local_loop rs p q ms :
  (fix loop (rs : list IRoute) (matches' : list MatchedRoute.t)
     : result (list MatchedRoute.t) :=
     match rs with
     | [] => Ok matches'
     | r :: rs' =>
         c ← findMatchingRoutes_iter ptr r p q matches';
         match c with Return v => Ok v | Continue => loop rs' matches' end
     end) rs ms = findMatchingRoutes_loop ptr rs p q ms.
Proof.
  revert ms. induction rs as [|r rs IH]; intros ms; [reflexivity|].
  cbn [findMatchingRoutes_loop]. rewrite <- IH. reflexivity.
Qed.

Lemma findMatchingRoutes_iter_unfold route np prefix matches :
  findMatchingRoutes_iter ptr route np prefix matches =
  let fullPath := fullPathOf prefix route in
  let own := MatchedRoute.mk route "/" ∅ (meta_or_empty route) in
  if is_root_case prefix route then
    and_then
      (if has_children route then
         childMatches ← findMatchingRoutes ptr (children route) np "/";
         if (0 <? length childMatches)%nat then
           Ok (Return (matches ++ [own] ++ childMatches)%list)
         else Ok Continue
       else Ok Continue)
      (if String.eqb np "/" then Ok (Return (matches ++ [own])%list)
       else Ok Continue)
  else
    regexp ← getRegexp ptr fullPath;
    if PathToRegexp.test regexp np || Str.startsWith np fullPath
    then
      params ← extractParams ptr fullPath np;
      let matchedRoute := MatchedRoute.mk route fullPath params (meta_or_empty route) in
      if has_children route then
        childMatches ← findMatchingRoutes ptr (children route) np fullPath;
        Ok (Return ((matches ++ [matchedRoute]) ++ childMatches)%list)
      else Ok (Return (matches ++ [matchedRoute])%list)
    else Ok Continue.
Proof.
  destruct route as [nm pth cmp cs rd mt].
  cbn [findMatchingRoutes_iter]. unfold findMatchingRoutes.
  rewrite !findMatchingRoutes_local_loop. reflexivity.
Qed.

(** Induction over a route forest: a property of forests that holds for
    the empty forest, and for [r :: rs] whenever it holds for the children
    of [r] and for [rs]. *)
Lemma forest_ind (P : list IRoute -> Prop) :
  P [] ->
  (forall r rs, P (children r) -> P rs -> P (r :: rs)) ->
  forall rs, P rs.
Proof.
  intros Hnil Hcons.
  assert (Hnode : forall r, P (children r)).
  { fix IH 1. intros [nm pth cmp cs rd mt]. simpl.
    induction cs as [|c cs IHcs]; [exact Hnil|].
    apply Hcons; [apply IH | exact IHcs]. }
  induction rs as [|r rs IH]; [exact Hnil|]. apply Hcons; auto.
Qed.

Lemma matchRoute_nil pathname prefix : matchRoute ptr [] pathname prefix = Ok None.
Proof. reflexivity. Qed.

Lemma matchRoute_cons r rs pathname prefix :
  matchRoute ptr (r :: rs) pathname prefix =
  c ← matchRoute_iter ptr r (normalizePath pathname) prefix;
  match c with
  | Return v => Ok v
  | Continue => matchRoute ptr rs pathname prefix
  end.
Proof. reflexivity. Qed.

Lemma children_first_spec r np pfx :
  children_first ptr r np pfx =
  match matchRoute ptr (children r) np pfx with
  | Ok (Some m) => Ok (Return (Some m))
  | Ok None => Ok Continue
  | Throw e => Throw e
  end.
Proof.
  unfold children_first, has_children.
  destruct (children r) as [|c cs]; [reflexivity|].
  destruct (matchRoute ptr (c :: cs) np pfx) as [[m|]|e]; reflexivity.
Qed.

Lemma matchRoute_normalized routes pathname prefix :
  matchRoute ptr routes (normalizePath pathname) prefix =
  matchRoute ptr routes pathname prefix.
Proof. unfold matchRoute. now rewrite normalizePath_idempotent. Qed.

Lemma findMatchingRoutes_normalized routes pathname prefix :
  findMatchingRoutes ptr routes (normalizePath pathname) prefix =
  findMatchingRoutes ptr routes pathname prefix.
Proof. unfold findMatchingRoutes. now rewrite normalizePath_idempotent. Qed.

(** Where a match returned by [matchRoute] comes from: it is the own
    match of a node none of whose children matched, either the top-level
    root on the pathname "/", or a node whose template matches. *)
Lemma matchRoute_some_cases (Q : string -> MatchedRoute.t -> Prop) :
  (forall r np,
      is_root_case "" r = true -> np = "/" ->
      matchRoute ptr (children r) np "/" = Ok None ->
      Q np (MatchedRoute.mk r "/" ∅ (meta_or_empty r))) ->
  (forall r prefix np c params,
      is_root_case prefix r = false ->
      ptr (fullPathOf prefix r) = Ok c ->
      PathToRegexp.test (PathToRegexp.regexp c) np = true ->
      matchRoute ptr (children r) np (fullPathOf prefix r) = Ok None ->
      extractParams ptr (fullPathOf prefix r) np = Ok params ->
      Q np (MatchedRoute.mk r (fullPathOf prefix r) params (meta_or_empty r))) ->
  forall routes pathname prefix m,
    matchRoute ptr routes pathname prefix = Ok (Some m) ->
    Q (normalizePath pathname) m.
Proof.
  intros Hroot Hown routes.
  induction routes as [|r rs IHc IHrs] using forest_ind; intros pathname prefix m.
  { discriminate. }
  rewrite matchRoute_cons, matchRoute_iter_unfold. cbv zeta.
  set (np := normalizePath pathname). set (fp := fullPathOf prefix r).
  assert (Hkids : forall pfx m',
    matchRoute ptr (children r) np pfx = Ok (Some m') -> Q np m').
  { intros pfx m' H. apply IHc in H. unfold np in H.
    now rewrite normalizePath_idempotent in H. }
  destruct (is_root_case prefix r) eqn:Hcase.
  - assert (Hp : prefix = "").
    { apply andb_true_iff in Hcase as [_ Hp]. now apply String.eqb_eq in Hp. }
    subst prefix. unfold and_then. rewrite children_first_spec.
    destruct (matchRoute ptr (children r) np "/") as [[m'|]|e] eqn:Hc; simpl.
    + intros [= <-]. eauto.
    + destruct (String.eqb np "/") eqn:Hnp; simpl.
      * intros [= <-]. apply String.eqb_eq in Hnp. now apply Hroot.
      * apply IHrs.
    + discriminate.
  - unfold getRegexp. destruct (ptr fp) as [c|e] eqn:Hfp; simpl; [|discriminate].
    destruct (PathToRegexp.test (PathToRegexp.regexp c) np) eqn:Ht.
    + unfold and_then. rewrite children_first_spec.
      destruct (matchRoute ptr (children r) np fp) as [[m'|]|e] eqn:Hc; simpl.
      * intros [= <-]. eauto.
      * destruct (extractParams ptr fp np) as [ps|e] eqn:Hps; simpl; [|discriminate].
        intros [= <-]. now apply (Hown r prefix np c ps).
      * discriminate.
    + rewrite children_first_spec.
      destruct (matchRoute ptr (children r) np fp) as [[m'|]|e] eqn:Hc; simpl.
      * intros [= <-]. eauto.
      * apply IHrs.
      * discriminate.
Qed.

(** The match that [matchRoute] returns has no matching child subtree. *)
Lemma matchRoute_deepest routes pathname prefix m :
  matchRoute ptr routes pathname prefix = Ok (Some m) ->
  matchRoute ptr (children (MatchedRoute.route m)) (normalizePath pathname)
    (MatchedRoute.path m) = Ok None.
Proof.
  apply (matchRoute_some_cases
           (fun np m => matchRoute ptr (children (MatchedRoute.route m)) np
                          (MatchedRoute.path m) = Ok None)); auto.
Qed.

(** The match that [matchRoute] returns is a node whose template matches
    the normalized pathname, or the top-level root on the pathname "/". *)
Lemma matchRoute_sound routes pathname prefix m :
  matchRoute ptr routes pathname prefix = Ok (Some m) ->
  matches_pathname ptr (normalizePath pathname) m.
Proof.
  apply (matchRoute_some_cases (matches_pathname ptr)).
  - intros r np Hcase -> _. left.
    apply andb_true_iff in Hcase as [Hp _]. apply String.eqb_eq in Hp. auto.
  - intros r prefix' np c ps _ Hc Ht _ _. right. exists c. auto.
Qed.

Lemma normalizePath_nonempty p : normalizePath p <> "".
Proof.
  destruct (normalizePath_normal p) as (Hs & _). intros E. rewrite E in Hs.
  discriminate Hs.
Qed.

Lemma matchRoute_path_nonempty routes pathname prefix m :
  matchRoute ptr routes pathname prefix = Ok (Some m) ->
  MatchedRoute.path m <> "".
Proof.
  apply (matchRoute_some_cases (fun _ m => MatchedRoute.path m <> "")).
  - intros; discriminate.
  - intros r prefix' np c ps _ _ _ _ _. apply normalizePath_nonempty.
Qed.

Lemma templates_under_unfold prefix r :
  templates_under prefix r =
  fullPathOf prefix r :: templates_below (fullPathOf prefix r) (children r).
Proof.
  destruct r as [nm pth cmp cs rd mt]. reflexivity.
Qed.

(** When [matchRoute] finds nothing below a nonempty prefix, every
    template of the forest was compiled and failed on the pathname. *)
Lemma matchRoute_none routes :
  forall pathname prefix,
    prefix <> "" ->
    matchRoute ptr routes pathname prefix = Ok None ->
    Forall (fails_on ptr (normalizePath pathname)) (templates_below prefix routes).
Proof.
  induction routes as [|r rs IHc IHrs] using forest_ind; intros pathname prefix Hp.
  { intros _. constructor. }
  rewrite matchRoute_cons, matchRoute_iter_unfold. cbv zeta.
  set (np := normalizePath pathname). set (fp := fullPathOf prefix r).
  assert (Hcase : is_root_case prefix r = false).
  { unfold is_root_case. apply andb_false_iff. right. now apply String.eqb_neq. }
  rewrite Hcase. unfold getRegexp.
  destruct (ptr fp) as [c|e] eqn:Hfp; simpl; [|discriminate].
  destruct (PathToRegexp.test (PathToRegexp.regexp c) np) eqn:Ht.
  { unfold and_then. rewrite children_first_spec.
    destruct (matchRoute ptr (children r) np fp) as [[m'|]|e]; simpl; try discriminate.
    destruct (extractParams ptr fp np); discriminate. }
  rewrite children_first_spec.
  destruct (matchRoute ptr (children r) np fp) as [[m'|]|e] eqn:Hc; simpl;
    try discriminate.
  intros Hrest. cbn [templates_below flat_map]. rewrite templates_under_unfold.
  fold fp. apply Forall_app. split; [|now apply IHrs].
  constructor; [exists c; auto|].
  apply IHc in Hc; [|apply normalizePath_nonempty].
  unfold np in Hc. now rewrite normalizePath_idempotent in Hc.
Qed.

(** No descendant of the node that [matchRoute] returns has a template
    that matches the pathname. *)
Lemma matchRoute_no_matching_descendant routes pathname prefix m :
  matchRoute ptr routes pathname prefix = Ok (Some m) ->
  Forall (fails_on ptr (normalizePath pathname))
    (templates_below (MatchedRoute.path m) (children (MatchedRoute.route m))).
Proof.
  intros H.
  pose proof (matchRoute_path_nonempty _ _ _ _ H) as Hne.
  apply matchRoute_deepest in H.
  apply (matchRoute_none _ _ _ Hne) in H.
  now rewrite normalizePath_idempotent in H.
Qed.

(** A reached node whose template matches: children first, then the node. *)
Lemma matchRoute_exact r rest pathname prefix c :
  is_root_case prefix r = false ->
  ptr (fullPathOf prefix r) = Ok c ->
  PathToRegexp.test (PathToRegexp.regexp c) (normalizePath pathname) = true ->
  matchRoute ptr (r :: rest) pathname prefix =
  match matchRoute ptr (children r) (normalizePath pathname) (fullPathOf prefix r) with
  | Ok (Some child) => Ok (Some child)
  | Ok None =>
      params ← extractParams ptr (fullPathOf prefix r) (normalizePath pathname);
      Ok (Some (MatchedRoute.mk r (fullPathOf prefix r) params (meta_or_empty r)))
  | Throw e => Throw e
  end.
Proof.
  intros Hroot Hc Ht.
  rewrite matchRoute_cons, matchRoute_iter_unfold. cbv zeta.
  rewrite Hroot. unfold getRegexp. rewrite Hc. simpl. rewrite Ht.
  unfold and_then. rewrite children_first_spec.
  destruct (matchRoute ptr (children r) _ _) as [[m'|]|e]; simpl; try reflexivity.
  destruct (extractParams ptr _ _); reflexivity.
Qed.

Lemma findMatchingRoutes_nil pathname prefix :
  findMatchingRoutes ptr [] pathname prefix = Ok [].
Proof. reflexivity. Qed.

Lemma findMatchingRoutes_cons r rs pathname prefix :
  findMatchingRoutes ptr (r :: rs) pathname prefix =
  c ← findMatchingRoutes_iter ptr r (normalizePath pathname) prefix [];
  match c with
  | Return v => Ok v
  | Continue => findMatchingRoutes ptr rs pathname prefix
  end.
Proof. reflexivity. Qed.

(** A reached node other than the top-level root: it is included, followed
    by what its children contribute, when the test holds, and passed
    over otherwise. *)
Lemma findMatchingRoutes_visit r rest pathname prefix c :
  is_root_case prefix r = false ->
  ptr (fullPathOf prefix r) = Ok c ->
  findMatchingRoutes ptr (r :: rest) pathname prefix =
  if on_the_path c (fullPathOf prefix r) (normalizePath pathname) then
    params ← extractParams ptr (fullPathOf prefix r) (normalizePath pathname);
    childMatches ← findMatchingRoutes ptr (children r) (normalizePath pathname)
                     (fullPathOf prefix r);
    Ok (MatchedRoute.mk r (fullPathOf prefix r) params (meta_or_empty r)
        :: childMatches)
  else findMatchingRoutes ptr rest pathname prefix.
Proof.
  intros Hroot Hc.
  rewrite findMatchingRoutes_cons, findMatchingRoutes_iter_unfold. cbv zeta.
  rewrite Hroot. unfold getRegexp, on_the_path. rewrite Hc. simpl.
  destruct (_ || _); [|reflexivity].
  destruct (extractParams ptr _ _) as [ps|e]; simpl; [|reflexivity].
  unfold has_children. destruct (children r) as [|k ks]; [reflexivity|].
  destruct (findMatchingRoutes ptr (k :: ks) _ _); reflexivity.
Qed.

Lemma findMatchingRoutes_skip pre rest pathname prefix :
  Forall (passed_over ptr prefix (normalizePath pathname)) pre ->
  findMatchingRoutes ptr (pre ++ rest) pathname prefix =
  findMatchingRoutes ptr rest pathname prefix.
Proof.
  induction 1 as [|s pre Hs _ IH]; [reflexivity|].
  change ((s :: pre) ++ rest)%list with (s :: (pre ++ rest))%list.
  rewrite findMatchingRoutes_cons. unfold passed_over in Hs. rewrite Hs. exact IH.
Qed.

(** A node other than the top-level root is passed over when its
    template compiles and fails the inclusion test. *)
Lemma passed_over_by_test s prefix np c :
  is_root_case prefix s = false ->
  ptr (fullPathOf prefix s) = Ok c ->
  on_the_path c (fullPathOf prefix s) np = false ->
  passed_over ptr prefix np s.
Proof.
  intros Hroot Hc Hoff. unfold passed_over.
  rewrite findMatchingRoutes_iter_unfold. cbv zeta.
  rewrite Hroot. unfold getRegexp. rewrite Hc. simpl.
  unfold on_the_path in Hoff. now rewrite Hoff.
Qed.

(** Every node that [findMatchingRoutes] returns satisfies the inclusion
    test. *)
Lemma findMatchingRoutes_sound routes :
  forall pathname prefix ms,
    findMatchingRoutes ptr routes pathname prefix = Ok ms ->
    Forall (included_by_test ptr (normalizePath pathname)) ms.
Proof.
  induction routes as [|r rs IHc IHrs] using forest_ind; intros pathname prefix ms.
  { intros [= <-]. constructor. }
  rewrite findMatchingRoutes_cons, findMatchingRoutes_iter_unfold. cbv zeta.
  set (np := normalizePath pathname). set (fp := fullPathOf prefix r).
  assert (Hkids : forall pfx ks,
    findMatchingRoutes ptr (children r) np pfx = Ok ks ->
    Forall (included_by_test ptr np) ks).
  { intros pfx ks H. apply IHc in H. unfold np in H.
    now rewrite normalizePath_idempotent in H. }
  assert (Hroot : forall m, MatchedRoute.path m = "/" -> included_by_test ptr np m).
  { intros m Hm. left. rewrite Hm. apply normalizePath_starts. }
  destruct (is_root_case prefix r).
  - unfold and_then.
    assert (Hrest :
      (c ← (if String.eqb np "/"
            then Ok (Return ([] ++ [MatchedRoute.mk r "/" ∅ (meta_or_empty r)])%list)
            else Ok Continue);
       match c with
       | Return v => Ok v
       | Continue => findMatchingRoutes ptr rs pathname prefix
       end) = Ok ms -> Forall (included_by_test ptr np) ms).
    { destruct (String.eqb np "/"); simpl.
      - intros [= <-]. constructor; [now apply Hroot | constructor].
      - apply IHrs. }
    destruct (has_children r); [|exact Hrest].
    destruct (findMatchingRoutes ptr (children r) np "/") as [ks|e] eqn:Hk;
      simpl; [|discriminate].
    destruct (0 <? length ks)%nat; simpl; [|exact Hrest].
    intros [= <-]. constructor; [now apply Hroot | eauto].
  - unfold getRegexp. destruct (ptr fp) as [c|e] eqn:Hc; simpl; [|discriminate].
    destruct (PathToRegexp.test (PathToRegexp.regexp c) np || Str.startsWith np fp)
      eqn:Hon; simpl; [|apply IHrs].
    destruct (extractParams ptr fp np) as [ps|e]; simpl; [|discriminate].
    assert (Hown : included_by_test ptr np (MatchedRoute.mk r fp ps (meta_or_empty r))).
    { apply orb_true_iff in Hon as [Ht|Hp]; [right; eauto | left; exact Hp]. }
    destruct (has_children r).
    + destruct (findMatchingRoutes ptr (children r) np fp) as [ks|e] eqn:Hk;
        simpl; [|discriminate].
      intros [= <-]. constructor; eauto.
    + intros [= <-]. constructor; [exact Hown | constructor].
Qed.

End MatcherFacts.


(** C10.  [matchRoute] and [findMatchingRoutes] normalize the pathname on
    entry: replacing the pathname argument by its normalization changes
    neither result. *)
Theorem matcher_invariant_under_normalization
    (ptr : string -> result PathToRegexp.t)
    (routes : list IRoute) (pathname prefix : string) :
  matchRoute ptr routes pathname prefix =
    matchRoute ptr routes (normalizePath pathname) prefix /\
  findMatchingRoutes ptr routes pathname prefix =
    findMatchingRoutes ptr routes (normalizePath pathname) prefix.
Proof.
  split; symmetry;
    [apply matchRoute_normalized | apply findMatchingRoutes_normalized].
Qed.

(** C1.  When the traversal of [matchRoute] reaches a node whose full
    path matches the normalized pathname, it recurses into the children
    first and returns the node's own match only if no child matches;
    hence the match that [matchRoute] returns is a node whose template
    matches and none of whose descendants has a template that matches:
    a matching descendant wins over its ancestor.  For [parent > child]
    and the pathname "/parent/child", [matchRoute] returns the child and
    [findMatchingRoutes] returns parent then child. *)
Theorem matchRoute_children_first (ptr : string -> result PathToRegexp.t) :
  (forall r rest pathname prefix c,
      is_root_case prefix r = false ->
      ptr (fullPathOf prefix r) = Ok c ->
      PathToRegexp.test (PathToRegexp.regexp c) (normalizePath pathname) = true ->
      matchRoute ptr (r :: rest) pathname prefix =
      match matchRoute ptr (children r) (normalizePath pathname)
              (fullPathOf prefix r) with
      | Ok (Some child) => Ok (Some child)
      | Ok None =>
          params ← extractParams ptr (fullPathOf prefix r) (normalizePath pathname);
          Ok (Some (MatchedRoute.mk r (fullPathOf prefix r) params (meta_or_empty r)))
      | Throw e => Throw e
      end) /\
  (forall routes pathname prefix m,
      matchRoute ptr routes pathname prefix = Ok (Some m) ->
      matches_pathname ptr (normalizePath pathname) m /\
      matchRoute ptr (children (MatchedRoute.route m)) (normalizePath pathname)
        (MatchedRoute.path m) = Ok None /\
      Forall (fails_on ptr (normalizePath pathname))
        (templates_below (MatchedRoute.path m) (children (MatchedRoute.route m)))) /\
  (forall cp cc,
      ptr "/parent" = Ok cp ->
      PathToRegexp.test (PathToRegexp.regexp cp) "/parent/child" = false ->
      ptr "/parent/child" = Ok cc ->
      PathToRegexp.test (PathToRegexp.regexp cc) "/parent/child" = true ->
      PathToRegexp.keys cc = [] ->
      matchRoute ptr [parent_route] "/parent/child" "" =
        Ok (Some (MatchedRoute.mk child_route "/parent/child" ∅ ∅)) /\
      findMatchingRoutes ptr [parent_route] "/parent/child" "" =
        Ok [MatchedRoute.mk parent_route "/parent" ∅ ∅;
            MatchedRoute.mk child_route "/parent/child" ∅ ∅]).
Proof.
  split; [exact (matchRoute_exact ptr)|].
  split.
  { intros routes pathname prefix m H. split; [|split].
    - exact (matchRoute_sound ptr _ _ _ _ H).
    - exact (matchRoute_deepest ptr _ _ _ _ H).
    - exact (matchRoute_no_matching_descendant ptr _ _ _ _ H). }
  intros cp cc Hcp Hnp Hcc Hyc Hkc.
  assert (Ecc : extractParams ptr "/parent/child" "/parent/child" = Ok ∅).
  { unfold extractParams, getRegexp, getKeys. rewrite Hcc. simpl. rewrite Hkc.
    unfold PathToRegexp.test in Hyc.
    destruct (PathToRegexp.exec _ _); [reflexivity | discriminate]. }
  assert (Ecp : extractParams ptr "/parent" "/parent/child" = Ok ∅).
  { unfold extractParams, getRegexp, getKeys. rewrite Hcp. simpl.
    unfold PathToRegexp.test in Hnp.
    destruct (PathToRegexp.exec _ _); [discriminate | reflexivity]. }
  split.
  - rewrite matchRoute_cons, matchRoute_iter_unfold. cbv zeta.
    change (is_root_case "" parent_route) with false.
    change (fullPathOf "" parent_route) with "/parent".
    change (normalizePath "/parent/child") with "/parent/child".
    unfold getRegexp at 1. rewrite Hcp. simpl. rewrite Hnp.
    rewrite children_first_spec.
    change (children parent_route) with [child_route].
    rewrite (matchRoute_exact ptr child_route [] "/parent/child" "/parent" cc);
      [|reflexivity|exact Hcc|exact Hyc].
    change (fullPathOf "/parent" child_route) with "/parent/child".
    change (normalizePath "/parent/child") with "/parent/child".
    change (children child_route) with (@nil IRoute).
    rewrite matchRoute_nil, Ecc. reflexivity.
  - rewrite (findMatchingRoutes_visit ptr parent_route [] "/parent/child" "" cp);
      [|reflexivity|exact Hcp].
    change (fullPathOf "" parent_route) with "/parent".
    change (normalizePath "/parent/child") with "/parent/child".
    unfold on_the_path. rewrite Hnp.
    change (Str.startsWith "/parent/child" "/parent") with true. simpl orb.
    rewrite Ecp. simpl.
    change (children parent_route) with [child_route].
    rewrite (findMatchingRoutes_visit ptr child_route [] "/parent/child" "/parent" cc);
      [|reflexivity|exact Hcc].
    change (fullPathOf "/parent" child_route) with "/parent/child".
    change (normalizePath "/parent/child") with "/parent/child".
    unfold on_the_path. rewrite Hyc. simpl orb. rewrite Ecc. reflexivity.
Qed.


Lemma matchRoute_children_first_witness :
  matchRoute PathToRegexpModel.pathToRegexp [child_route] "/parent/child" "/parent" =
    Ok (Some (MatchedRoute.mk child_route "/parent/child" ∅ ∅)) /\
  matchRoute PathToRegexpModel.pathToRegexp (children child_route)
    (normalizePath "/parent/child") "/parent/child" = Ok None /\
  matchRoute PathToRegexpModel.pathToRegexp [parent_route] "/parent/child" "" =
    Ok (Some (MatchedRoute.mk child_route "/parent/child" ∅ ∅)) /\
  findMatchingRoutes PathToRegexpModel.pathToRegexp [parent_route] "/parent/child" "" =
    Ok [MatchedRoute.mk parent_route "/parent" ∅ ∅;
        MatchedRoute.mk child_route "/parent/child" ∅ ∅].
Proof.
  destruct (matchRoute_children_first PathToRegexpModel.pathToRegexp)
    as (Hexact & Hdeep & Hex).
  assert (Hpc : matchRoute PathToRegexpModel.pathToRegexp [parent_route]
                  "/parent/child" "" =
                Ok (Some (MatchedRoute.mk child_route "/parent/child" ∅ ∅)) /\
                findMatchingRoutes PathToRegexpModel.pathToRegexp [parent_route]
                  "/parent/child" "" =
                Ok [MatchedRoute.mk parent_route "/parent" ∅ ∅;
                    MatchedRoute.mk child_route "/parent/child" ∅ ∅]).
  { eapply Hex; reflexivity. }
  split.
  { erewrite Hexact; reflexivity. }
  split.
  { exact (proj1 (proj2 (Hdeep [parent_route] "/parent/child" "" _ (proj1 Hpc)))). }
  exact Hpc.
Defined.

(** C2, as the code has it.  Every node that [findMatchingRoutes]
    returns has a template that matches the normalized pathname or is a
    plain string prefix of it (for the top-level root, whose template is
    "/", the prefix holds of every normalized pathname); and a node other
    than the top-level root that the traversal reaches, its earlier
    siblings having been passed over, is included exactly when it passes
    this test, in which case the walk continues in its children only.
    The test is a string-prefix test: the node "/user" is included for
    "/username". *)
Theorem findMatchingRoutes_inclusion (ptr : string -> result PathToRegexp.t) :
  (forall routes pathname prefix ms,
      findMatchingRoutes ptr routes pathname prefix = Ok ms ->
      Forall (included_by_test ptr (normalizePath pathname)) ms) /\
  (forall pre r rest pathname prefix c,
      Forall (passed_over ptr prefix (normalizePath pathname)) pre ->
      is_root_case prefix r = false ->
      ptr (fullPathOf prefix r) = Ok c ->
      findMatchingRoutes ptr (pre ++ r :: rest) pathname prefix =
      if on_the_path c (fullPathOf prefix r) (normalizePath pathname) then
        params ← extractParams ptr (fullPathOf prefix r) (normalizePath pathname);
        childMatches ← findMatchingRoutes ptr (children r) (normalizePath pathname)
                         (fullPathOf prefix r);
        Ok (MatchedRoute.mk r (fullPathOf prefix r) params (meta_or_empty r)
            :: childMatches)
      else findMatchingRoutes ptr rest pathname prefix) /\
  (forall c,
      ptr "/user" = Ok c ->
      PathToRegexp.test (PathToRegexp.regexp c) "/username" = false ->
      findMatchingRoutes ptr [user_route] "/username" "" =
        Ok [MatchedRoute.mk user_route "/user" ∅ ∅]).
Proof.
  split; [intros routes; exact (findMatchingRoutes_sound ptr routes)|].
  split.
  - intros pre r rest pathname prefix c Hpre Hroot Hc.
    rewrite findMatchingRoutes_skip by exact Hpre.
    now apply findMatchingRoutes_visit.
  - intros c Hc Hn.
    rewrite (findMatchingRoutes_visit ptr user_route [] "/username" "" c);
      [|reflexivity|exact Hc].
    change (fullPathOf "" user_route) with "/user".
    change (normalizePath "/username") with "/username".
    unfold on_the_path. rewrite Hn.
    change (Str.startsWith "/username" "/user") with true. simpl orb.
    unfold extractParams, getRegexp, getKeys. rewrite Hc. simpl.
    unfold PathToRegexp.test in Hn.
    destruct (PathToRegexp.exec _ _); [discriminate | reflexivity].
Qed.

Lemma findMatchingRoutes_inclusion_witness :
  Forall (included_by_test PathToRegexpModel.pathToRegexp (normalizePath "/parent/child"))
    [MatchedRoute.mk parent_route "/parent" ∅ ∅;
     MatchedRoute.mk child_route "/parent/child" ∅ ∅] /\
  findMatchingRoutes PathToRegexpModel.pathToRegexp
    ([user_route] ++ username_route :: []) "/Username/" "" =
    Ok [MatchedRoute.mk username_route "/username" ∅ ∅] /\
  findMatchingRoutes PathToRegexpModel.pathToRegexp [user_route] "/username" "" =
    Ok [MatchedRoute.mk user_route "/user" ∅ ∅].
Proof.
  destruct (findMatchingRoutes_inclusion PathToRegexpModel.pathToRegexp)
    as (Hsound & Hvisit & Hex).
  split.
  { apply (Hsound [parent_route] "/parent/child" ""). reflexivity. }
  split.
  { refine (Hvisit [user_route] username_route [] "/Username/" "" _ _ eq_refl eq_refl).
    constructor; [|constructor]. reflexivity. }
  eapply Hex; reflexivity.
Defined.

(** C2 as stated fails: with the siblings "user" and "username" and the
    pathname "/username", the node "username" passes the inclusion test
    (its template matches) and yet is not in the returned list, because
    the walk stopped at its sibling "user". *)
Lemma findMatchingRoutes_stops_at_first_sibling :
  findMatchingRoutes PathToRegexpModel.pathToRegexp
    [user_route; username_route] "/username" "" =
    Ok [MatchedRoute.mk user_route "/user" ∅ ∅] /\
  (exists c,
      PathToRegexpModel.pathToRegexp (fullPathOf "" username_route) = Ok c /\
      PathToRegexp.test (PathToRegexp.regexp c) (normalizePath "/username") = true /\
      on_the_path c (fullPathOf "" username_route) (normalizePath "/username") = true) /\
  ~ In username_route
      (map MatchedRoute.route [MatchedRoute.mk user_route "/user" ∅ ∅]).
Proof.
  split; [reflexivity|]. split.
  - eexists. repeat split; reflexivity.
  - simpl. intros [H|[]]. discriminate H.
Qed.


(** ** Parameter extraction *)

Section ExtractParamsFacts.

Variable ptr : string -> result PathToRegexp.t.



End ExtractParamsFacts.





(** ** Guard pipeline *)

Section GuardFacts.

Lemma log_log es1 es2 w : log es2 (log es1 w) = log (es1 ++ es2) w.
Proof. unfold log. simpl. now rewrite app_assoc. Qed.

Lemma log_nil w : log [] w = w.
Proof. destruct w. unfold log. simpl. now rewrite app_nil_r. Qed.

Variables from to : string.

(** One iteration of [runGuards], by what the guard does. *)
Lemma runGuards_loop_affirmative g gs w :
  affirmative from to g ->
  runGuards_loop (g :: gs) from to w =
  runGuards_loop gs from to (log [GuardCalled (guard_id g) from to] w).
Proof. intros [H|H]; cbn; rewrite H; reflexivity. Qed.

Lemma runGuards_loop_false g gs w :
  guard_fn g from to = Returns GFalse ->
  runGuards_loop (g :: gs) from to w =
  Some (Ok (RBool false), log [GuardCalled (guard_id g) from to] w).
Proof. intros H; cbn; rewrite H; reflexivity. Qed.

Lemma runGuards_loop_string g gs w s :
  guard_fn g from to = Returns (GString s) ->
  runGuards_loop (g :: gs) from to w =
  Some (Ok (RString s), log [GuardCalled (guard_id g) from to] w).
Proof. intros H; cbn; rewrite H; reflexivity. Qed.

Lemma runGuards_loop_raises g gs w e :
  guard_fn g from to = Raises e ->
  runGuards_loop (g :: gs) from to w =
  Some (Ok (RBool false),
        log [GuardCalled (guard_id g) from to; ConsoleError guard_error_msg e] w).
Proof.
  intros H.
  change [GuardCalled (guard_id g) from to; ConsoleError guard_error_msg e]
    with ([GuardCalled (guard_id g) from to] ++ [ConsoleError guard_error_msg e])%list.
  rewrite <- log_log. cbn; rewrite H; reflexivity.
Qed.

Lemma runGuards_loop_skip pre rest w :
  Forall (affirmative from to) pre ->
  runGuards_loop (pre ++ rest) from to w =
  runGuards_loop rest from to (log (guard_calls pre from to) w).
Proof.
  intros H. revert w. induction H as [|g pre Hg _ IH]; intros w.
  - simpl. now rewrite log_nil.
  - change ((g :: pre) ++ rest)%list with (g :: (pre ++ rest))%list.
    rewrite (runGuards_loop_affirmative _ _ _ Hg), IH, log_log. reflexivity.
Qed.

Lemma runGuards_unfold w :
  runGuards from to w = runGuards_loop (beforeGuards w) from to w.
Proof. reflexivity. Qed.

End GuardFacts.


(** C3.  [runGuards] runs the before-guards in registration order.  At
    the first guard that returns [false] it returns [false], at the first
    guard that returns a string it returns that string, and in both cases
    no later guard is called; when every guard returns [true] or nothing
    it returns [true] after calling them all.  With the guards allow,
    cancel, allow registered in that order, the first two are called, the
    third is not, and the result is [false]. *)
Theorem runGuards_first_veto_wins (from to : string) :
  (forall w pre g post,
      beforeGuards w = (pre ++ g :: post)%list ->
      Forall (affirmative from to) pre ->
      (guard_fn g from to = Returns GFalse ->
       runGuards from to w =
         Some (Ok (RBool false), log (guard_calls (pre ++ [g]) from to) w)) /\
      (forall s,
          guard_fn g from to = Returns (GString s) ->
          runGuards from to w =
            Some (Ok (RString s), log (guard_calls (pre ++ [g]) from to) w))) /\
  (forall w,
      Forall (affirmative from to) (beforeGuards w) ->
      runGuards from to w =
        Some (Ok (RBool true), log (guard_calls (beforeGuards w) from to) w)) /\
  (forall w0 w3 i1 i2 i3,
      beforeGuards w0 = [] ->
      (beforeEach (allow_guard i1);; beforeEach (cancel_guard i2);;
       beforeEach (allow_guard i3);; mret tt) w0 = Some (Ok tt, w3) ->
      runGuards from to w3 =
        Some (Ok (RBool false),
              log [GuardCalled i1 from to; GuardCalled i2 from to] w3)).
Proof.
  split; [|split].
  - intros w pre g post Hw Hpre. unfold guard_calls. rewrite map_app.
    split.
    + intros Hg. rewrite runGuards_unfold, Hw, runGuards_loop_skip by exact Hpre.
      rewrite (runGuards_loop_false _ _ _ _ _ Hg), log_log. reflexivity.
    + intros s Hg. rewrite runGuards_unfold, Hw, runGuards_loop_skip by exact Hpre.
      rewrite (runGuards_loop_string _ _ _ _ _ _ Hg), log_log. reflexivity.
  - intros w Hall. rewrite runGuards_unfold.
    rewrite <- (app_nil_r (beforeGuards w)) at 1.
    rewrite runGuards_loop_skip by exact Hall. reflexivity.
  - intros w0 w3 i1 i2 i3 H0 Hreg.
    destruct w0 as [l a h gs hs es]. simpl in H0. subst gs.
    change (Some (Ok tt, mkWorld l a h
                           [allow_guard i1; cancel_guard i2; allow_guard i3] hs es)
            = Some (Ok tt, w3)) in Hreg.
    injection Hreg as <-. rewrite runGuards_unfold.
    change (beforeGuards _) with ([allow_guard i1] ++ cancel_guard i2 :: [allow_guard i3])%list.
    rewrite runGuards_loop_skip by (repeat constructor).
    rewrite (runGuards_loop_false from to (cancel_guard i2)) by reflexivity.
    rewrite log_log. reflexivity.
Qed.

Lemma runGuards_first_veto_wins_witness :
  runGuards "/a" "/b"
    (set_beforeGuards [allow_guard 1; login_guard 2; cancel_guard 3] fresh_world) =
    Some (Ok (RString "/login"),
          log [GuardCalled 1 "/a" "/b"; GuardCalled 2 "/a" "/b"]
            (set_beforeGuards [allow_guard 1; login_guard 2; cancel_guard 3] fresh_world)) /\
  runGuards "/a" "/b"
    (set_beforeGuards [allow_guard 1; allow_guard 2] fresh_world) =
    Some (Ok (RBool true),
          log [GuardCalled 1 "/a" "/b"; GuardCalled 2 "/a" "/b"]
            (set_beforeGuards [allow_guard 1; allow_guard 2] fresh_world)) /\
  runGuards "/a" "/b"
    (set_beforeGuards [allow_guard 1; cancel_guard 2; allow_guard 3] fresh_world) =
    Some (Ok (RBool false),
          log [GuardCalled 1 "/a" "/b"; GuardCalled 2 "/a" "/b"]
            (set_beforeGuards [allow_guard 1; cancel_guard 2; allow_guard 3] fresh_world)).
Proof.
  destruct (runGuards_first_veto_wins "/a" "/b") as (Hveto & Hall & Hex).
  split.
  { apply (Hveto _ [allow_guard 1] (login_guard 2) [cancel_guard 3]);
      [reflexivity | repeat constructor | reflexivity]. }
  split.
  { apply Hall. repeat constructor. }
  apply (Hex fresh_world _ 1 2 3); reflexivity.
Defined.

(** C6.  When a guard that [runGuards] reaches throws (or rejects), the
    error does not leave [runGuards]: it is logged with [console.error],
    [runGuards] returns [false] and calls no later guard, exactly as if
    the guard had returned [false]. *)
Theorem runGuards_catches_guard_error (from to : string) (w : World)
    (pre : list NavigationGuard) (g : NavigationGuard)
    (post : list NavigationGuard) (e : JsError) :
  beforeGuards w = (pre ++ g :: post)%list ->
  Forall (affirmative from to) pre ->
  guard_fn g from to = Raises e ->
  runGuards from to w =
    Some (Ok (RBool false),
          log (guard_calls (pre ++ [g]) from to
               ++ [ConsoleError guard_error_msg e]) w) /\
  let w' := set_beforeGuards (pre ++ cancel_guard (guard_id g) :: post) w in
  runGuards from to w' =
    Some (Ok (RBool false), log (guard_calls (pre ++ [g]) from to) w').
Proof.
  intros Hw Hpre Hg. unfold guard_calls. rewrite map_app. split.
  - rewrite runGuards_unfold, Hw, runGuards_loop_skip by exact Hpre.
    rewrite (runGuards_loop_raises _ _ _ _ _ _ Hg), log_log, <- app_assoc.
    reflexivity.
  - cbv zeta. set (w' := set_beforeGuards _ w). rewrite runGuards_unfold.
    change (beforeGuards w') with (pre ++ cancel_guard (guard_id g) :: post)%list.
    rewrite runGuards_loop_skip by exact Hpre.
    rewrite (runGuards_loop_false from to (cancel_guard (guard_id g))) by reflexivity.
    rewrite log_log. reflexivity.
Qed.

Lemma runGuards_catches_guard_error_witness :
  let w := set_beforeGuards
             [allow_guard 1; throwing_guard 2 (Error "boom"); allow_guard 3]
             fresh_world in
  runGuards "/a" "/b" w =
    Some (Ok (RBool false),
          log [GuardCalled 1 "/a" "/b"; GuardCalled 2 "/a" "/b";
               ConsoleError guard_error_msg (Error "boom")] w).
Proof.
  intros w.
  apply (runGuards_catches_guard_error "/a" "/b" w
           [allow_guard 1] (throwing_guard 2 (Error "boom")) [allow_guard 3]
           (Error "boom"));
    [reflexivity | repeat constructor | reflexivity].
Defined.


(** ** Navigation *)

Section NavigationFacts.

Lemma runAfterHooks_loop_trace hs from to w :
  runAfterHooks_loop hs from to w = Some (Ok tt, log (hooks_trace hs from to) w).
Proof.
  revert w. induction hs as [|h hs IH]; intros w.
  { simpl. now rewrite log_nil. }
  cbn [runAfterHooks_loop hooks_trace flat_map].
  destruct (hook_fn h from to) as [[]|e] eqn:Hh.
  - transitivity (runAfterHooks_loop hs from to (log [HookCalled (hook_id h) from to] w)).
    { reflexivity. }
    rewrite IH, log_log. reflexivity.
  - transitivity (runAfterHooks_loop hs from to
                    (log [ConsoleError hook_error_msg e]
                       (log [HookCalled (hook_id h) from to] w))).
    { reflexivity. }
    rewrite IH, !log_log. reflexivity.
Qed.

Lemma getRouterMode_run w :
  getRouterMode w =
  Some (Ok (active_adapter w), set_currentAdapter (Some (active_adapter w)) w).
Proof.
  destruct w as [l [a|] h gs hs es]; reflexivity.
Qed.

Lemma getRouterMode_again a w :
  getRouterMode (set_currentAdapter (Some a) w) =
  Some (Ok a, set_currentAdapter (Some a) w).
Proof. reflexivity. Qed.

Lemma getCurrentPathname_run a w :
  getCurrentPathname (set_currentAdapter (Some a) w) =
  Some (Ok (getCurrentPath a (location w)), set_currentAdapter (Some a) w).
Proof. reflexivity. Qed.

(** [push] and [replace] after the guards have run. *)
Lemma push_step fuel to query w r w2 :
  let a := active_adapter w in
  let from := getCurrentPath a (location w) in
  runGuards from to (set_currentAdapter (Some a) w) = Some (Ok r, w2) ->
  push (S fuel) to query w =
  match r with
  | RBool false => Some (Ok false, w2)
  | RString redirect => push fuel redirect (Some []) w2
  | RBool true =>
      (adapter_push a to (buildSearchString query);;
       update_routerState;;
       runAfterHooks from to;;
       mret true) w2
  end.
Proof.
  intros a from Hg. cbn [push]. unfold mbind at 1, M_bind at 1.
  rewrite getRouterMode_run. fold a.
  unfold mbind at 1, M_bind at 1. rewrite getCurrentPathname_run. fold from.
  unfold mbind at 1, M_bind at 1. rewrite Hg.
  destruct r as [[|]|s]; reflexivity.
Qed.

Lemma replace_step fuel to query w r w2 :
  let a := active_adapter w in
  let from := getCurrentPath a (location w) in
  runGuards from to (set_currentAdapter (Some a) w) = Some (Ok r, w2) ->
  replace (S fuel) to query w =
  match r with
  | RBool false => Some (Ok false, w2)
  | RString redirect => replace fuel redirect (Some []) w2
  | RBool true =>
      (adapter_replace a to (buildSearchString query);;
       update_routerState;;
       runAfterHooks from to;;
       mret true) w2
  end.
Proof.
  intros a from Hg. cbn [replace]. unfold mbind at 1, M_bind at 1.
  rewrite getRouterMode_run. fold a.
  unfold mbind at 1, M_bind at 1. rewrite getCurrentPathname_run. fold from.
  unfold mbind at 1, M_bind at 1. rewrite Hg.
  destruct r as [[|]|s]; reflexivity.
Qed.

End NavigationFacts.


Section NavigationOutcomes.

(** The verdict of the guards and the events they add depend on the
    registered guards only. *)
Lemma runGuards_loop_verdict gs from to :
  exists r es,
    Forall (fun e => touches_environment e = false) es /\
    forall w, runGuards_loop gs from to w = Some (Ok r, log es w).
Proof.
  induction gs as [|g gs (r & es & Hes & Hrun)].
  { exists (RBool true), []. split; [constructor|]. intros w. now rewrite log_nil. }
  destruct (guard_fn g from to) as [[| |s|]|e] eqn:Hg.
  - exists r, (GuardCalled (guard_id g) from to :: es). split; [constructor; auto|].
    intros w. rewrite runGuards_loop_affirmative by (left; exact Hg).
    now rewrite Hrun, log_log.
  - exists (RBool false), [GuardCalled (guard_id g) from to].
    split; [repeat constructor|]. intros w. now apply runGuards_loop_false.
  - exists (RString s), [GuardCalled (guard_id g) from to].
    split; [repeat constructor|]. intros w. now apply runGuards_loop_string.
  - exists r, (GuardCalled (guard_id g) from to :: es). split; [constructor; auto|].
    intros w. rewrite runGuards_loop_affirmative by (right; exact Hg).
    now rewrite Hrun, log_log.
  - exists (RBool false),
      [GuardCalled (guard_id g) from to; ConsoleError guard_error_msg e].
    split; [repeat constructor|]. intros w. now apply runGuards_loop_raises.
Qed.

(** Running the guards in the world where the adapter has been created. *)
Lemma runGuards_with_adapter from to a w r wg :
  runGuards from to w = Some (Ok r, wg) ->
  runGuards from to (set_currentAdapter (Some a) w) =
    Some (Ok r, set_currentAdapter (Some a) wg) /\
  location wg = location w /\
  routerState_href wg = routerState_href w /\
  exists es, events wg = (events w ++ es)%list /\
             Forall (fun e => touches_environment e = false) es.
Proof.
  rewrite !runGuards_unfold.
  change (beforeGuards (set_currentAdapter (Some a) w)) with (beforeGuards w).
  destruct (runGuards_loop_verdict (beforeGuards w) from to) as (r' & es & Hes & Hrun).
  rewrite !Hrun. intros [= <- <-]. repeat split; eauto.
Qed.

End NavigationOutcomes.

(** C4.  When the guards cancel a navigation, [push] and [replace]
    resolve to [false], not to an error, and leave the environment
    alone: the location and [routerState.href] are unchanged, and the
    trace gains no call of the adapter's [push] or [replace] and no
    after-hook call. *)
Theorem cancelled_navigation_touches_nothing
    (fuel : nat) (to : string) (query : option QueryParams) (w wg : World) :
  runGuards (getCurrentPath (active_adapter w) (location w)) to w =
    Some (Ok (RBool false), wg) ->
  let w' := set_currentAdapter (Some (active_adapter w)) wg in
  push (S fuel) to query w = Some (Ok false, w') /\
  replace (S fuel) to query w = Some (Ok false, w') /\
  location w' = location w /\
  routerState_href w' = routerState_href w /\
  exists es, events w' = (events w ++ es)%list /\
             Forall (fun e => touches_environment e = false) es.
Proof.
  intros Hg w'.
  destruct (runGuards_with_adapter _ _ (active_adapter w) _ _ _ Hg)
    as (Hg' & Hl & Hh & Hes).
  split; [exact (push_step fuel to query w _ _ Hg')|].
  split; [exact (replace_step fuel to query w _ _ Hg')|].
  auto.
Qed.

Lemma cancelled_navigation_touches_nothing_witness :
  let w := set_afterHooks [recording_hook 7]
             (set_beforeGuards [allow_guard 1; cancel_guard 2] fresh_world) in
  let w' := set_currentAdapter (Some (History "")) (log
              [GuardCalled 1 "/app/users/1" "/admin";
               GuardCalled 2 "/app/users/1" "/admin"] w) in
  push 1 "/admin" (Some [("page", QNumber "1")]) w = Some (Ok false, w') /\
  replace 1 "/admin" None w = Some (Ok false, w') /\
  location w' = example_location /\
  routerState_href w' = href example_location.
Proof.
  intros w w'.
  destruct (cancelled_navigation_touches_nothing 0 "/admin"
              (Some [("page", QNumber "1")]) w
              (log [GuardCalled 1 "/app/users/1" "/admin";
                    GuardCalled 2 "/app/users/1" "/admin"] w) eq_refl)
    as (Hpush & _ & Hl & Hh & _).
  destruct (cancelled_navigation_touches_nothing 0 "/admin" None w
              (log [GuardCalled 1 "/app/users/1" "/admin";
                    GuardCalled 2 "/app/users/1" "/admin"] w) eq_refl)
    as (_ & Hreplace & _).
  repeat split; assumption.
Defined.


Section RedirectFacts.

(** A guard that redirects every navigation, the one to its own target
    included, keeps [push] from ever completing. *)
Lemma push_always_redirected gid fuel :
  forall to query w,
    beforeGuards w = [always_login_guard gid] ->
    push fuel to query w = None.
Proof.
  induction fuel as [|fuel IH]; intros to query w Hw; [reflexivity|].
  rewrite (push_step fuel to query w (RString "/login")
             (log [GuardCalled gid (getCurrentPath (active_adapter w) (location w)) to]
                (set_currentAdapter (Some (active_adapter w)) w))).
  - apply IH. exact Hw.
  - rewrite runGuards_unfold.
    change (beforeGuards (set_currentAdapter _ w)) with (beforeGuards w).
    rewrite Hw. reflexivity.
Qed.

(** The steps of [push] after the guards have allowed the navigation. *)
Lemma push_commit a from to search w :
  (adapter_push a to search;; update_routerState;; runAfterHooks from to;;
   mret true) w =
  let l := location_after_push a (location w) to search in
  Some (Ok true,
        log (hooks_trace (afterHooks w) from to)
          (set_routerState_href (href l)
             (set_location l (log [AdapterPush to search] w)))).
Proof.
  cbv zeta.
  set (l := location_after_push a (location w) to search).
  set (w' := set_routerState_href (href l)
               (set_location l (log [AdapterPush to search] w))).
  transitivity ((runAfterHooks_loop (afterHooks w) from to ≫= λ _, mret true) w').
  { reflexivity. }
  unfold mbind, M_bind. rewrite runAfterHooks_loop_trace. reflexivity.
Qed.

End RedirectFacts.

(** C5, as the code has it.  When the guards answer a navigation with a
    redirect path, [push] (respectively [replace]) is the same operation
    run again on the redirect target with an empty query, in the world
    the guards left; its result is the result of that run.  With a guard
    that redirects every navigation not already aimed at "/login" to
    "/login", [push("/admin")] completes with [true], the adapter's
    [push] is called once, with "/login", and the after-hooks are called
    with the starting path and "/login". *)
Theorem redirected_navigation_reruns
    (fuel : nat) (query : option QueryParams) (w : World) :
  let a := active_adapter w in
  let from := getCurrentPath a (location w) in
  (forall to target wg,
      runGuards from to w = Some (Ok (RString target), wg) ->
      push (S fuel) to query w =
        push fuel target (Some []) (set_currentAdapter (Some a) wg) /\
      replace (S fuel) to query w =
        replace fuel target (Some []) (set_currentAdapter (Some a) wg)) /\
  (forall gid,
      beforeGuards w = [login_guard gid] ->
      exists w',
        push (S (S fuel)) "/admin" query w = Some (Ok true, w') /\
        events w' =
          (events w
           ++ [GuardCalled gid from "/admin"; GuardCalled gid from "/login";
               AdapterPush "/login" ""]
           ++ hooks_trace (afterHooks w) from "/login")%list /\
        location w' = location_after_push a (location w) "/login" "" /\
        routerState_href w' = href (location w')).
Proof.
  intros a from. split.
  - intros to target wg Hg.
    destruct (runGuards_with_adapter _ _ a _ _ _ Hg) as (Hg' & _).
    split; [exact (push_step fuel to query w _ _ Hg')|].
    exact (replace_step fuel to query w _ _ Hg').
  - intros gid Hw.
    set (w1 := set_currentAdapter (Some a) w).
    set (w2 := log [GuardCalled gid from "/admin"] w1).
    rewrite (push_step (S fuel) "/admin" query w (RString "/login") w2).
    2:{ rewrite runGuards_unfold.
        change (beforeGuards (set_currentAdapter _ w)) with (beforeGuards w).
        rewrite Hw. reflexivity. }
    set (w3 := log [GuardCalled gid from "/login"] w2).
    rewrite (push_step fuel "/login" (Some []) w2 (RBool true) w3).
    2:{ rewrite runGuards_unfold.
        change (beforeGuards (set_currentAdapter _ w2)) with (beforeGuards w).
        rewrite Hw. reflexivity. }
    change (active_adapter w2) with a.
    change (getCurrentPath a (location w2)) with from.
    change (buildSearchString (Some [])) with "".
    rewrite push_commit. eexists. split; [reflexivity|].
    destruct w as [l ca h gs hs es]. simpl. repeat split.
    rewrite <- !app_assoc. reflexivity.
Qed.

Lemma redirected_navigation_reruns_witness :
  let w := set_currentAdapter (Some (HistoryModeAdapter "/app/"))
             (set_afterHooks [recording_hook 7]
                (set_beforeGuards [login_guard 1] fresh_world)) in
  exists w',
    push 2 "/admin" None w = Some (Ok true, w') /\
    events w' =
      [GuardCalled 1 "/users/1" "/admin"; GuardCalled 1 "/users/1" "/login";
       AdapterPush "/login" ""; HookCalled 7 "/users/1" "/login"] /\
    routerState_href w' = "https://example.com/app/login" /\
    getCurrentPath (History "/app") (location w') = "/login".
Proof.
  intros w.
  destruct (redirected_navigation_reruns 0 None w) as (Hre & Hex).
  destruct (Hre "/admin" "/login"
              (log [GuardCalled 1 "/users/1" "/admin"] w) eq_refl) as (Hpush & _).
  destruct (Hex 1 eq_refl) as (w' & Hrun & Hev & Hloc & Hhref).
  exists w'. split; [exact Hrun|]. split; [exact Hev|].
  rewrite Hhref, Hloc. split; reflexivity.
Defined.

(** C5 as stated fails for its example: a guard that redirects every
    navigation to "/login" redirects the navigation to "/login" as well,
    so [push("/admin")] never completes, whatever the number of nested
    calls allowed; the adapter is never asked to encode "/login". *)
Lemma push_redirect_loop_never_completes :
  ~ exists fuel outcome,
      push fuel "/admin" None
        (set_beforeGuards [always_login_guard 1] fresh_world) = Some outcome.
Proof.
  intros (fuel & outcome & H).
  rewrite (push_always_redirected 1 fuel) in H by reflexivity. discriminate H.
Qed.


(** ** Mode adapters *)

Section ModeFacts.
Import Str.

Lemma prefix_app b rest : String.prefix b (b +:+ rest) = true.
Proof.
  induction b as [|c b IH]; [now destruct rest|].
  change (String c b +:+ rest) with (String c (b +:+ rest)). simpl.
  destruct (ascii_dec c c); [exact IH | congruence].
Qed.

Lemma drop_app b rest : drop (String.length b) (b +:+ rest) = rest.
Proof. induction b as [|c b IH]; [reflexivity | exact IH]. Qed.

Lemma remove_first_prefix b rest : remove_first b (b +:+ rest) = rest.
Proof.
  destruct (b +:+ rest) as [|c s] eqn:E.
  - simpl. destruct b; [|discriminate E].
    destruct rest; [reflexivity|discriminate E].
  - cbn [remove_first]. rewrite <- E, prefix_app, drop_app. reflexivity.
Qed.

Lemma ends_with_slash_snoc b : ends_with_slash (b +:+ "/") = true.
Proof.
  induction b as [|c b IH]; [reflexivity|].
  change (String c b +:+ "/") with (String c (b +:+ "/")).
  destruct b as [|c' b']; [reflexivity | exact IH].
Qed.

Lemma drop_last_snoc b : drop_last (b +:+ "/") = b.
Proof.
  induction b as [|c b IH]; [reflexivity|].
  change (String c b +:+ "/") with (String c (b +:+ "/")).
  destruct b as [|c' b']; [reflexivity|].
  change (String c' b' +:+ "/") with (String c' (b' +:+ "/")) in *.
  rewrite StrFacts.drop_last_cons. f_equal. exact IH.
Qed.

Lemma strip_trailing_slash_snoc b : strip_trailing_slash (b +:+ "/") = b.
Proof. unfold strip_trailing_slash. now rewrite ends_with_slash_snoc, drop_last_snoc. Qed.

Lemma history_getCurrentPath b rest o s h :
  getCurrentPath (History b) (mkLocation o (b +:+ rest) s h) = or_root rest.
Proof.
  unfold getCurrentPath. cbn [pathname].
  destruct (String.eqb b "") eqn:Eb.
  - apply String.eqb_eq in Eb. subst b. reflexivity.
  - cbn [negb]. now rewrite remove_first_prefix.
Qed.

End ModeFacts.

(** C9.  In history mode with a configured base, [getCurrentPath] returns
    the location's pathname with the base prefix removed, and the root
    path when nothing remains; one trailing '/' of the configured base is
    dropped by the constructor.  With base "/app" and the pathname
    "/app/users/1" it returns "/users/1". *)
Theorem history_getCurrentPath_strips_base
    (base rest o s h : string) :
  getCurrentPath (HistoryModeAdapter base)
    (mkLocation o (Str.strip_trailing_slash base +:+ rest) s h) =
    (if String.eqb rest "" then "/" else rest) /\
  HistoryModeAdapter (base +:+ "/") = History base /\
  getCurrentPath (HistoryModeAdapter (base +:+ "/"))
    (mkLocation o (base +:+ rest) s h) =
    (if String.eqb rest "" then "/" else rest) /\
  getCurrentPath (HistoryModeAdapter "/app") (mkLocation o "/app/users/1" s h) =
    "/users/1".
Proof.
  unfold HistoryModeAdapter. rewrite strip_trailing_slash_snoc.
  rewrite !history_getCurrentPath. repeat split.
Qed.


(** * Further properties *)

(** ** Paths as segments *)

Module SegmentFacts.
Import Str StrFacts.

Lemma split_cons_slash s : PathToRegexpModel.split_slash (String "/" s) = "" :: PathToRegexpModel.split_slash s.
Proof. reflexivity. Qed.

Lemma split_nonnil s : exists x r, PathToRegexpModel.split_slash s = x :: r.
Proof.
  induction s as [|c s (x & r & IH)]; [now exists "", []|].
  cbn [PathToRegexpModel.split_slash]. destruct (is_slash c); [eauto|].
  rewrite IH. eauto.
Qed.

Lemma split_cons_other c s x r :
  is_slash c = false -> PathToRegexpModel.split_slash s = x :: r -> PathToRegexpModel.split_slash (String c s) = String c x :: r.
Proof. intros Hc Hs. cbn [PathToRegexpModel.split_slash]. now rewrite Hc, Hs. Qed.

Lemma is_slash_true c : is_slash c = true -> c = "/"%char.
Proof. unfold is_slash. apply Ascii.eqb_eq. Qed.

Lemma split_app a b : PathToRegexpModel.split_slash (a +:+ "/" +:+ b) = (PathToRegexpModel.split_slash a ++ PathToRegexpModel.split_slash b)%list.
Proof.
  induction a as [|c a IH]; [reflexivity|].
  change (String c a +:+ "/" +:+ b) with (String c (a +:+ "/" +:+ b)).
  destruct (is_slash c) eqn:Hc.
  - apply is_slash_true in Hc. subst c. rewrite !split_cons_slash, IH. reflexivity.
  - destruct (split_nonnil a) as (x & r & Ha).
    rewrite (split_cons_other c a x r Hc Ha).
    rewrite (split_cons_other c _ x (r ++ PathToRegexpModel.split_slash b) Hc); [reflexivity|].
    rewrite IH, Ha. reflexivity.
Qed.

Lemma segments_app a b : segments (a +:+ "/" +:+ b) = (segments a ++ segments b)%list.
Proof. unfold segments. now rewrite split_app, List.filter_app. Qed.

Lemma segments_cons_slash s : segments (String "/" s) = segments s.
Proof. reflexivity. Qed.

Lemma segments_empty : segments "" = [].
Proof. reflexivity. Qed.

(** The first piece and the filtered later pieces of a split. *)
Lemma split_collapse s :
  hd "" (PathToRegexpModel.split_slash (collapse_slashes s)) = hd "" (PathToRegexpModel.split_slash s) /\
  List.filter nonempty (tl (PathToRegexpModel.split_slash (collapse_slashes s))) =
  List.filter nonempty (tl (PathToRegexpModel.split_slash s)).
Proof.
  induction s as [|c s [IHh IHt]]; [split; reflexivity|].
  cbn [collapse_slashes].
  destruct (split_nonnil s) as (x & r & Hs).
  destruct (split_nonnil (collapse_slashes s)) as (x' & r' & Hcs).
  rewrite Hs, Hcs in *. simpl in IHh, IHt. subst x'.
  destruct (is_slash c) eqn:Hc.
  - apply is_slash_true in Hc. subst c. rewrite split_cons_slash, Hs.
    destruct (starts_with_slash s) eqn:Hst; cbn [andb].
    + destruct s as [|d s']; [discriminate|]. simpl in Hst.
      apply is_slash_true in Hst. subst d. rewrite split_cons_slash in Hs.
      injection Hs as <- <-. rewrite Hcs. simpl. split; [reflexivity|exact IHt].
    + rewrite split_cons_slash, Hcs. simpl.
      split; [reflexivity|]. destruct (nonempty x); now rewrite IHt.
  - cbn [andb]. rewrite (split_cons_other c _ x r' Hc Hcs).
    rewrite (split_cons_other c s x r Hc Hs). simpl. split; [reflexivity|exact IHt].
Qed.

Lemma segments_hd_tl s :
  segments s =
  ((if nonempty (hd "" (PathToRegexpModel.split_slash s)) then [hd "" (PathToRegexpModel.split_slash s)] else [])
   ++ List.filter nonempty (tl (PathToRegexpModel.split_slash s)))%list.
Proof.
  unfold segments. destruct (split_nonnil s) as (x & r & ->). simpl.
  now destruct (nonempty x).
Qed.

Lemma segments_collapse s : segments (collapse_slashes s) = segments s.
Proof.
  rewrite !segments_hd_tl. destruct (split_collapse s) as [-> ->]. reflexivity.
Qed.

Lemma ends_with_slash_snoc_inv s :
  ends_with_slash s = true -> s = drop_last s +:+ "/".
Proof.
  induction s as [|c s IH]; [discriminate|].
  destruct s as [|c' s'].
  - simpl. intros H. apply is_slash_true in H. now subst.
  - intros H. rewrite drop_last_cons.
    change (String c (drop_last (String c' s')) +:+ "/")
      with (String c (drop_last (String c' s') +:+ "/")).
    f_equal. apply IH. exact H.
Qed.

Lemma segments_drop_last s :
  ends_with_slash s = true -> segments (drop_last s) = segments s.
Proof.
  intros H. rewrite (ends_with_slash_snoc_inv s H) at 2.
  change (drop_last s +:+ "/") with (drop_last s +:+ "/" +:+ "").
  now rewrite segments_app, segments_empty, app_nil_r.
Qed.

Lemma normalizePath_segments p : segments (normalizePath p) = segments p.
Proof.
  unfold normalizePath.
  destruct (String.eqb p "") eqn:E1; [apply String.eqb_eq in E1; now subst|].
  destruct (String.eqb p "/") eqn:E2; [apply String.eqb_eq in E2; now subst|].
  cbn [orb]. rewrite <- (segments_collapse p).
  generalize (collapse_slashes p). intros c.
  change ("/" +:+ c) with (String "/" c).
  set (c' := if negb (starts_with_slash c) then String "/" c else c).
  assert (Hc' : segments c' = segments c).
  { unfold c'. now destruct (starts_with_slash c). }
  rewrite <- Hc'. clearbody c'.
  destruct ((1 <? String.length c')%nat && ends_with_slash c') eqn:E; [|reflexivity].
  apply andb_true_iff in E as [_ E]. now apply segments_drop_last.
Qed.

Lemma join_cons_char c x r :
  join_slash (String c x :: r) = String c (join_slash (x :: r)).
Proof. destruct r; reflexivity. Qed.

Lemma join_cons_cons a x r :
  join_slash (a :: x :: r) = a +:+ "/" +:+ join_slash (x :: r).
Proof. reflexivity. Qed.

Lemma join_split s : join_slash (PathToRegexpModel.split_slash s) = s.
Proof.
  induction s as [|c s IH]; [reflexivity|].
  destruct (split_nonnil s) as (x & r & Hs).
  destruct (is_slash c) eqn:Hc.
  - apply is_slash_true in Hc. subst c. rewrite split_cons_slash, Hs.
    rewrite Hs in IH. rewrite join_cons_cons, IH. reflexivity.
  - rewrite (split_cons_other c s x r Hc Hs), join_cons_char.
    rewrite Hs in IH. now rewrite IH.
Qed.

(** In a nonempty string with no doubled slash and no trailing slash,
    every piece after the first is nonempty, and so is the first when
    the string does not start with a slash. *)
Lemma split_pieces_nonempty s :
  s <> "" -> has_double_slash s = false -> ends_with_slash s = false ->
  Forall (fun x => nonempty x = true) (tl (PathToRegexpModel.split_slash s)) /\
  (starts_with_slash s = false -> nonempty (hd "" (PathToRegexpModel.split_slash s)) = true).
Proof.
  induction s as [|c s IH]; [congruence|]. intros _ Hdd He.
  rewrite has_double_slash_cons in Hdd. apply orb_false_iff in Hdd as [Hcs Hdd].
  destruct (split_nonnil s) as (x & r & Hs).
  destruct (is_slash c) eqn:Hc.
  - apply is_slash_true in Hc. subst c. rewrite split_cons_slash.
    simpl in Hcs. simpl tl.
    assert (Hne : s <> "") by (intros ->; discriminate He).
    assert (He' : ends_with_slash s = false) by (destruct s; [congruence|exact He]).
    destruct (IH Hne Hdd He') as [Ht Hh]. split; [|discriminate].
    rewrite Hs in *. constructor; [now apply Hh | exact Ht].
  - rewrite (split_cons_other c s x r Hc Hs). simpl. split; [|reflexivity].
    destruct s as [|d s'].
    + injection Hs as <- <-. constructor.
    + assert (He' : ends_with_slash (String d s') = false) by exact He.
      destruct (IH ltac:(discriminate) Hdd He') as [Ht _].
      rewrite Hs in Ht. exact Ht.
Qed.

Lemma filter_all {A} (f : A -> bool) l :
  Forall (fun x => f x = true) l -> List.filter f l = l.
Proof. induction 1 as [|x l Hx _ IH]; simpl; [reflexivity|]. now rewrite Hx, IH. Qed.

Lemma normal_segments n : normal n -> n = "/" +:+ join_slash (segments n).
Proof.
  intros (Hs & Hd & He). destruct n as [|c t]; [discriminate|].
  simpl in Hs. apply is_slash_true in Hs. subst c.
  rewrite segments_cons_slash. change ("/" +:+ ?x) with (String "/" x). f_equal.
  destruct t as [|d t']; [reflexivity|].
  destruct He as [He|He]; [|discriminate He].
  rewrite has_double_slash_cons in Hd. apply orb_false_iff in Hd as [Hst Hd].
  simpl in Hst.
  assert (He' : ends_with_slash (String d t') = false) by exact He.
  destruct (split_pieces_nonempty (String d t') ltac:(discriminate) Hd He') as [Ht Hh].
  specialize (Hh Hst). unfold segments.
  destruct (split_nonnil (String d t')) as (x & r & Hx).
  rewrite <- (join_split (String d t')) at 1.
  rewrite Hx in *. simpl in Hh, Ht. simpl. rewrite Hh, (filter_all _ _ Ht). reflexivity.
Qed.

Lemma normalizePath_formula s :
  normalizePath s = "/" +:+ join_slash (segments s).
Proof.
  rewrite <- (normalizePath_segments s).
  apply normal_segments, normalizePath_normal.
Qed.

End SegmentFacts.

(** X1.  [normalizePath p] is '/' followed by the nonempty segments of
    [p] joined by '/': doubled, leading and trailing slashes do not
    matter, and two paths normalize to the same path exactly when they
    have the same segments. *)
Theorem normalizePath_by_segments (p q : string) :
  normalizePath p = "/" +:+ join_slash (segments p) /\
  (segments p = segments q <-> normalizePath p = normalizePath q).
Proof.
  split; [apply SegmentFacts.normalizePath_formula|]. split.
  - intros E. now rewrite !SegmentFacts.normalizePath_formula, E.
  - intros E. rewrite <- (SegmentFacts.normalizePath_segments p), E.
    apply SegmentFacts.normalizePath_segments.
Qed.

(** X2.  The full path of a node is '/' followed by the segments of the
    prefix and then the segments of the node's own path: a leading or
    trailing slash on either one changes nothing, and the prefix "/"
    acts as the empty prefix. *)
Theorem fullPath_by_segments (prefix : string) (r : IRoute) :
  fullPathOf prefix r =
  "/" +:+ join_slash (segments prefix ++ segments (path r)).
Proof.
  unfold fullPathOf. rewrite SegmentFacts.normalizePath_formula. do 2 f_equal.
  destruct (String.eqb prefix "/") eqn:E.
  - apply String.eqb_eq in E. subst prefix. reflexivity.
  - apply SegmentFacts.segments_app.
Qed.


(** ** Route matching: where results come from, and sibling order *)

Section MatcherStructure.

Variable ptr : string -> result PathToRegexp.t.

Lemma nodes_under_unfold prefix r :
  nodes_under prefix r =
  (r, fullPathOf prefix r) :: nodes_below (fullPathOf prefix r) (children r).
Proof. destruct r as [nm pth cmp cs rd mt]. reflexivity. Qed.

Lemma fullPathOf_root r : is_root_case "" r = true -> fullPathOf "" r = "/".
Proof.
  unfold is_root_case, fullPathOf. intros [H _]%andb_true_iff.
  apply String.eqb_eq in H. rewrite H. reflexivity.
Qed.

(** The node of a match is a node of the forest, and the path of the
    match is that node's resolved full path. *)
Lemma matchRoute_in_forest routes :
  forall pathname prefix m,
    matchRoute ptr routes pathname prefix = Ok (Some m) ->
    In (MatchedRoute.route m, MatchedRoute.path m) (nodes_below prefix routes).
Proof.
  induction routes as [|r rs IHc IHrs] using forest_ind; intros pathname prefix m.
  { discriminate. }
  rewrite matchRoute_cons, matchRoute_iter_unfold. cbv zeta.
  set (np := normalizePath pathname). set (fp := fullPathOf prefix r).
  cbn [nodes_below flat_map]. rewrite nodes_under_unfold. fold fp.
  intros H. apply in_or_app.
  assert (Hkids : forall m',
    matchRoute ptr (children r) np fp = Ok (Some m') ->
    In (MatchedRoute.route m', MatchedRoute.path m')
       ((r, fp) :: nodes_below fp (children r))).
  { intros m' Hm'. right. exact (IHc _ _ _ Hm'). }
  destruct (is_root_case prefix r) eqn:Hcase.
  - assert (Hp : prefix = "").
    { apply andb_true_iff in Hcase as [_ Hp]. now apply String.eqb_eq in Hp. }
    subst prefix. assert (Hfp : fp = "/") by now apply fullPathOf_root.
    rewrite Hfp in *. unfold and_then in H. rewrite children_first_spec in H.
    destruct (matchRoute ptr (children r) np "/") as [[m'|]|e] eqn:Hc; simpl in H.
    + injection H as <-. left. now apply Hkids.
    + destruct (String.eqb np "/"); simpl in H.
      * injection H as <-. left. now left.
      * right. exact (IHrs _ _ _ H).
    + discriminate.
  - unfold getRegexp in H. destruct (ptr fp) as [c|e]; simpl in H; [|discriminate].
    destruct (PathToRegexp.test (PathToRegexp.regexp c) np).
    + unfold and_then in H. rewrite children_first_spec in H.
      destruct (matchRoute ptr (children r) np fp) as [[m'|]|e] eqn:Hc; simpl in H.
      * injection H as <-. left. now apply Hkids.
      * destruct (extractParams ptr fp np) as [ps|e]; simpl in H; [|discriminate].
        injection H as <-. left. now left.
      * discriminate.
    + rewrite children_first_spec in H.
      destruct (matchRoute ptr (children r) np fp) as [[m'|]|e] eqn:Hc; simpl in H.
      * injection H as <-. left. now apply Hkids.
      * right. exact (IHrs _ _ _ H).
      * discriminate.
Qed.

(** The fields of a match: the meta of its node, and the parameters that
    its template extracts from the normalized pathname (none for the
    top-level root). *)
Lemma matchRoute_fields routes pathname prefix m :
  matchRoute ptr routes pathname prefix = Ok (Some m) ->
  MatchedRoute.meta m = meta_or_empty (MatchedRoute.route m) /\
  normalizePath (MatchedRoute.path m) = MatchedRoute.path m /\
  ((MatchedRoute.path m = "/" /\ MatchedRoute.params m = ∅) \/
   extractParams ptr (MatchedRoute.path m) (normalizePath pathname) =
     Ok (MatchedRoute.params m)).
Proof.
  apply (matchRoute_some_cases ptr
    (fun np m =>
       MatchedRoute.meta m = meta_or_empty (MatchedRoute.route m) /\
       normalizePath (MatchedRoute.path m) = MatchedRoute.path m /\
       ((MatchedRoute.path m = "/" /\ MatchedRoute.params m = ∅) \/
        extractParams ptr (MatchedRoute.path m) np = Ok (MatchedRoute.params m)))).
  - intros r np _ _ _. simpl. auto.
  - intros r prefix' np c ps _ _ _ _ Hps. simpl. repeat split; auto.
    apply normalizePath_idempotent.
Qed.

(** An iteration of [matchRoute] that returns, returns a match. *)
Lemma matchRoute_iter_return r np prefix v :
  matchRoute_iter ptr r np prefix = Ok (Return v) -> v <> None.
Proof.
  rewrite matchRoute_iter_unfold. cbv zeta.
  assert (Hkids : forall pfx (k : result (completion (option MatchedRoute.t))),
    (forall w, k = Ok (Return w) -> w <> None) ->
    and_then (children_first ptr r np pfx) k = Ok (Return v) -> v <> None).
  { intros pfx k Hk. unfold and_then. rewrite children_first_spec.
    destruct (matchRoute ptr (children r) np pfx) as [[m'|]|e]; simpl.
    - intros [= <-]. discriminate.
    - apply Hk.
    - discriminate. }
  destruct (is_root_case prefix r).
  - apply Hkids. intros w. destruct (String.eqb np "/"); [intros [= <-]|]; discriminate.
  - destruct (getRegexp ptr (fullPathOf prefix r)) as [re|e]; simpl; [|discriminate].
    destruct (PathToRegexp.test re np).
    + apply Hkids. intros w.
      destruct (extractParams ptr _ _); simpl; [intros [= <-]|]; discriminate.
    + rewrite children_first_spec.
      destruct (matchRoute ptr (children r) np _) as [[m'|]|e]; simpl;
        [intros [= <-]| |]; discriminate.
Qed.

(** Sibling order: a forest split in two is searched left part first. *)
Lemma matchRoute_loop_app rs1 rs2 np prefix :
  matchRoute_loop ptr (rs1 ++ rs2) np prefix =
  match matchRoute_loop ptr rs1 np prefix with
  | Ok None => matchRoute_loop ptr rs2 np prefix
  | found => found
  end.
Proof.
  induction rs1 as [|r rs1 IH]; [reflexivity|].
  cbn [app matchRoute_loop].
  destruct (matchRoute_iter ptr r np prefix) as [[[m|]|]|e] eqn:Hr;
    [reflexivity | | exact IH | reflexivity].
  now apply matchRoute_iter_return in Hr.
Qed.

(** An iteration of [findMatchingRoutes] that returns, returns a nonempty
    list. *)
Lemma findMatchingRoutes_iter_nonempty r np prefix ms :
  findMatchingRoutes_iter ptr r np prefix [] = Ok (Return ms) -> ms <> [].
Proof.
  rewrite findMatchingRoutes_iter_unfold. cbv zeta.
  destruct (is_root_case prefix r).
  - unfold and_then. destruct (has_children r).
    + destruct (findMatchingRoutes ptr (children r) np "/") as [ks|e]; simpl;
        [|discriminate].
      destruct (0 <? length ks)%nat; simpl.
      * intros [= <-]. discriminate.
      * destruct (String.eqb np "/"); simpl; [intros [= <-]|]; discriminate.
    + simpl. destruct (String.eqb np "/"); simpl; [intros [= <-]|]; discriminate.
  - destruct (getRegexp ptr (fullPathOf prefix r)) as [re|e]; simpl; [|discriminate].
    destruct (_ || _); [|discriminate].
    destruct (extractParams ptr _ _) as [ps|e]; simpl; [|discriminate].
    destruct (has_children r).
    + destruct (findMatchingRoutes ptr (children r) np _) as [ks|e]; simpl;
        [|discriminate].
      intros [= <-]. discriminate.
    + intros [= <-]. discriminate.
Qed.

Lemma findMatchingRoutes_loop_app rs1 rs2 np prefix :
  findMatchingRoutes_loop ptr (rs1 ++ rs2) np prefix [] =
  match findMatchingRoutes_loop ptr rs1 np prefix [] with
  | Ok [] => findMatchingRoutes_loop ptr rs2 np prefix []
  | found => found
  end.
Proof.
  induction rs1 as [|r rs1 IH]; [reflexivity|].
  cbn [app findMatchingRoutes_loop].
  destruct (findMatchingRoutes_iter ptr r np prefix []) as [[ms|]|e] eqn:Hr;
    [|exact IH|reflexivity].
  apply findMatchingRoutes_iter_nonempty in Hr. now destruct ms.
Qed.

End MatcherStructure.

(** X3.  A match returned by [matchRoute] is built from a node of the
    forest: its [route] is a node of the forest and its [path] that
    node's resolved (normalized) full path, its [meta] is the node's meta
    or the empty mapping, and its [params] are what [extractParams]
    gives for that full path on the normalized pathname (empty for the
    top-level root). *)
Theorem matchRoute_result_wellformed
    (ptr : string -> result PathToRegexp.t)
    (routes : list IRoute) (pathname prefix : string) (m : MatchedRoute.t) :
  matchRoute ptr routes pathname prefix = Ok (Some m) ->
  In (MatchedRoute.route m, MatchedRoute.path m) (nodes_below prefix routes) /\
  MatchedRoute.meta m = meta_or_empty (MatchedRoute.route m) /\
  normalizePath (MatchedRoute.path m) = MatchedRoute.path m /\
  ((MatchedRoute.path m = "/" /\ MatchedRoute.params m = ∅) \/
   extractParams ptr (MatchedRoute.path m) (normalizePath pathname) =
     Ok (MatchedRoute.params m)).
Proof.
  intros H. split; [exact (matchRoute_in_forest ptr _ _ _ _ H)|].
  exact (matchRoute_fields ptr _ _ _ _ H).
Qed.

Lemma matchRoute_result_wellformed_witness :
  In (plain_route ":id" [], "/users/:id")
     (nodes_below "" [plain_route "users" [plain_route ":id" []]]) /\
  extractParams PathToRegexpModel.pathToRegexp "/users/:id" (normalizePath "/users/42/") =
    Ok {["id" := "42"]}.
Proof.
  destruct (matchRoute_result_wellformed PathToRegexpModel.pathToRegexp
              [plain_route "users" [plain_route ":id" []]] "/users/42/" ""
              (MatchedRoute.mk (plain_route ":id" []) "/users/:id" {["id" := "42"]} ∅)
              eq_refl) as (Hin & _ & _ & [[Hp _]|Hps]).
  - discriminate Hp.
  - split; [exact Hin | exact Hps].
Defined.

(** X4.  Declaration order decides between siblings: searching a forest
    [rs1 ++ rs2] is searching [rs1], and [rs2] only when [rs1] yields
    nothing (no match for [matchRoute], the empty list for
    [findMatchingRoutes]); an error in [rs1] ends the search. *)
Theorem matcher_searches_in_declaration_order
    (ptr : string -> result PathToRegexp.t)
    (rs1 rs2 : list IRoute) (pathname prefix : string) :
  matchRoute ptr (rs1 ++ rs2) pathname prefix =
    match matchRoute ptr rs1 pathname prefix with
    | Ok None => matchRoute ptr rs2 pathname prefix
    | found => found
    end /\
  findMatchingRoutes ptr (rs1 ++ rs2) pathname prefix =
    match findMatchingRoutes ptr rs1 pathname prefix with
    | Ok [] => findMatchingRoutes ptr rs2 pathname prefix
    | found => found
    end.
Proof.
  split; [apply matchRoute_loop_app | apply findMatchingRoutes_loop_app].
Qed.


Section ChainFacts.

Variable ptr : string -> result PathToRegexp.t.

(** The head of the list that [findMatchingRoutes] returns is a node of
    the level searched, and the rest of the list is what
    [findMatchingRoutes] returns for the children of that node under its
    full path. *)
Lemma findMatchingRoutes_head routes :
  forall pathname prefix m ms,
    findMatchingRoutes ptr routes pathname prefix = Ok (m :: ms) ->
    In (MatchedRoute.route m) routes /\
    MatchedRoute.path m = fullPathOf prefix (MatchedRoute.route m) /\
    MatchedRoute.meta m = meta_or_empty (MatchedRoute.route m) /\
    findMatchingRoutes ptr (children (MatchedRoute.route m)) pathname
      (MatchedRoute.path m) = Ok ms.
Proof.
  induction routes as [|r rs IH]; intros pathname prefix m ms; [discriminate|].
  rewrite findMatchingRoutes_cons, findMatchingRoutes_iter_unfold. cbv zeta.
  set (np := normalizePath pathname). set (fp := fullPathOf prefix r).
  assert (Hrest : findMatchingRoutes ptr rs pathname prefix = Ok (m :: ms) ->
    In (MatchedRoute.route m) (r :: rs) /\
    MatchedRoute.path m = fullPathOf prefix (MatchedRoute.route m) /\
    MatchedRoute.meta m = meta_or_empty (MatchedRoute.route m) /\
    findMatchingRoutes ptr (children (MatchedRoute.route m)) pathname
      (MatchedRoute.path m) = Ok ms).
  { intros H. destruct (IH _ _ _ _ H) as (Hin & Hrest). split; [now right | exact Hrest]. }
  assert (Hnokids : has_children r = false ->
            findMatchingRoutes ptr (children r) pathname "/" = Ok [] /\
            findMatchingRoutes ptr (children r) pathname fp = Ok []).
  { unfold has_children. destruct (children r); [split; reflexivity | discriminate]. }
  destruct (is_root_case prefix r) eqn:Hcase.
  - assert (Hp : prefix = "").
    { apply andb_true_iff in Hcase as [_ Hp]. now apply String.eqb_eq in Hp. }
    subst prefix. assert (Hfp : fp = "/") by now apply fullPathOf_root.
    unfold and_then.
    assert (Hself : forall ks,
      findMatchingRoutes ptr (children r) pathname "/" = Ok ks ->
      Ok (MatchedRoute.mk r "/" ∅ (meta_or_empty r) :: ks) = Ok (m :: ms) ->
      In (MatchedRoute.route m) (r :: rs) /\
      MatchedRoute.path m = fullPathOf "" (MatchedRoute.route m) /\
      MatchedRoute.meta m = meta_or_empty (MatchedRoute.route m) /\
      findMatchingRoutes ptr (children (MatchedRoute.route m)) pathname
        (MatchedRoute.path m) = Ok ms).
    { intros ks Hks [= <- <-]. simpl. fold fp. rewrite Hfp. auto. }
    destruct (has_children r) eqn:Hch.
    + replace (findMatchingRoutes ptr (children r) np "/")
        with (findMatchingRoutes ptr (children r) pathname "/")
        by (symmetry; apply findMatchingRoutes_normalized).
      destruct (findMatchingRoutes ptr (children r) pathname "/") as [ks|e] eqn:Hk;
        simpl; [|discriminate].
      destruct ks as [|k ks]; simpl.
      * destruct (String.eqb np "/"); simpl; [|exact Hrest].
        now apply Hself.
      * now apply Hself.
    + simpl. destruct (String.eqb np "/"); simpl; [|exact Hrest].
      apply Hself. now apply Hnokids.
  - unfold getRegexp. destruct (ptr fp) as [c|e]; simpl; [|discriminate].
    destruct (_ || _); [|exact Hrest].
    destruct (extractParams ptr fp np) as [ps|e]; simpl; [|discriminate].
    destruct (has_children r) eqn:Hch.
    + replace (findMatchingRoutes ptr (children r) np fp)
        with (findMatchingRoutes ptr (children r) pathname fp)
        by (symmetry; apply findMatchingRoutes_normalized).
      destruct (findMatchingRoutes ptr (children r) pathname fp) as [ks|e] eqn:Hk;
        simpl; [|discriminate].
      intros [= <- <-]. simpl. auto.
    + intros [= <- <-]. simpl. repeat split; auto. now apply Hnokids.
Qed.

Lemma findMatchingRoutes_root_to_leaf ms :
  forall routes pathname prefix,
    findMatchingRoutes ptr routes pathname prefix = Ok ms ->
    root_to_leaf prefix routes ms.
Proof.
  induction ms as [|m ms IH]; intros routes pathname prefix H; [exact I|].
  destruct (findMatchingRoutes_head _ _ _ _ _ H) as (Hin & Hp & Hm & Hrest).
  cbn [root_to_leaf]. repeat split; auto. exact (IH _ _ _ Hrest).
Qed.

End ChainFacts.

(** X5.  The list that [findMatchingRoutes] returns runs root to leaf:
    its first match is a node of the searched level with that node's
    full path and meta, and the rest of the list is exactly what
    [findMatchingRoutes] returns for that node's children under its full
    path; so every match is a child of the match before it. *)
Theorem findMatchingRoutes_chain
    (ptr : string -> result PathToRegexp.t)
    (routes : list IRoute) (pathname prefix : string) :
  (forall m ms,
      findMatchingRoutes ptr routes pathname prefix = Ok (m :: ms) ->
      In (MatchedRoute.route m) routes /\
      MatchedRoute.path m = fullPathOf prefix (MatchedRoute.route m) /\
      MatchedRoute.meta m = meta_or_empty (MatchedRoute.route m) /\
      findMatchingRoutes ptr (children (MatchedRoute.route m)) pathname
        (MatchedRoute.path m) = Ok ms) /\
  (forall ms,
      findMatchingRoutes ptr routes pathname prefix = Ok ms ->
      root_to_leaf prefix routes ms).
Proof.
  split.
  - intros m ms. apply findMatchingRoutes_head.
  - intros ms. apply findMatchingRoutes_root_to_leaf.
Qed.

Lemma findMatchingRoutes_chain_witness :
  findMatchingRoutes PathToRegexpModel.pathToRegexp (children parent_route)
    "/parent/child" "/parent" =
    Ok [MatchedRoute.mk child_route "/parent/child" ∅ ∅] /\
  root_to_leaf "" [parent_route]
    [MatchedRoute.mk parent_route "/parent" ∅ ∅;
     MatchedRoute.mk child_route "/parent/child" ∅ ∅].
Proof.
  destruct (findMatchingRoutes_chain PathToRegexpModel.pathToRegexp
              [parent_route] "/parent/child" "") as [Hhead Hchain].
  split.
  - exact (proj2 (proj2 (proj2 (Hhead _ _ eq_refl)))).
  - exact (Hchain _ eq_refl).
Defined.


(** ** Guard and hook registries *)

Section RegistryFacts.

Lemma remove_guard_first id pre g post :
  guard_id g = id ->
  Forall (fun h => guard_id h <> id) pre ->
  remove_guard id (pre ++ g :: post) = (pre ++ post)%list.
Proof.
  intros Hg Hpre. induction Hpre as [|h pre Hh _ IH]; simpl.
  - rewrite Hg, Nat.eqb_refl. reflexivity.
  - apply Nat.eqb_neq in Hh. rewrite Hh, IH. reflexivity.
Qed.

Lemma remove_guard_absent id gs :
  Forall (fun h => guard_id h <> id) gs -> remove_guard id gs = gs.
Proof.
  induction 1 as [|h gs Hh _ IH]; simpl; [reflexivity|].
  apply Nat.eqb_neq in Hh. rewrite Hh, IH. reflexivity.
Qed.

Lemma remove_hook_first id pre h post :
  hook_id h = id ->
  Forall (fun k => hook_id k <> id) pre ->
  remove_hook id (pre ++ h :: post) = (pre ++ post)%list.
Proof.
  intros Hh Hpre. induction Hpre as [|k pre Hk _ IH]; simpl.
  - rewrite Hh, Nat.eqb_refl. reflexivity.
  - apply Nat.eqb_neq in Hk. rewrite Hk, IH. reflexivity.
Qed.

Lemma remove_hook_absent id hs :
  Forall (fun k => hook_id k <> id) hs -> remove_hook id hs = hs.
Proof.
  induction 1 as [|k hs Hk _ IH]; simpl; [reflexivity|].
  apply Nat.eqb_neq in Hk. rewrite Hk, IH. reflexivity.
Qed.

Lemma set_beforeGuards_same w : set_beforeGuards (beforeGuards w) w = w.
Proof. now destruct w. Qed.

Lemma set_afterHooks_same w : set_afterHooks (afterHooks w) w = w.
Proof. now destruct w. Qed.

End RegistryFacts.

(** X6.  [beforeEach(guard)] appends the guard to the registry and hands
    back a remover.  Whatever has been registered or removed since, the
    remover takes out the first registered occurrence of that guard and
    nothing else, the other guards keeping their order; when the guard
    is no longer registered the remover changes nothing. *)
Theorem beforeEach_remover (g : NavigationGuard) (w : World) :
  exists remove,
    beforeEach g w = Some (Ok remove, set_beforeGuards (beforeGuards w ++ [g]) w) /\
    (forall w2 pre post,
        beforeGuards w2 = (pre ++ g :: post)%list ->
        Forall (fun h => guard_id h <> guard_id g) pre ->
        remove w2 = Some (Ok tt, set_beforeGuards (pre ++ post) w2)) /\
    (forall w2,
        Forall (fun h => guard_id h <> guard_id g) (beforeGuards w2) ->
        remove w2 = Some (Ok tt, w2)).
Proof.
  eexists. split; [reflexivity|]. split.
  - intros w2 pre post Hw2 Hpre. unfold modify.
    now rewrite Hw2, remove_guard_first.
  - intros w2 Habs. unfold modify.
    now rewrite remove_guard_absent, set_beforeGuards_same.
Qed.

Lemma beforeEach_remover_witness :
  exists remove,
    beforeEach (cancel_guard 2) (set_beforeGuards [allow_guard 1] fresh_world) =
      Some (Ok remove,
            set_beforeGuards [allow_guard 1; cancel_guard 2] fresh_world) /\
    remove (set_beforeGuards [allow_guard 1; cancel_guard 2; allow_guard 3]
              fresh_world) =
      Some (Ok tt, set_beforeGuards [allow_guard 1; allow_guard 3] fresh_world).
Proof.
  destruct (beforeEach_remover (cancel_guard 2)
              (set_beforeGuards [allow_guard 1] fresh_world))
    as (remove & Hreg & Hrem & _).
  exists remove. split; [exact Hreg|].
  refine (Hrem (set_beforeGuards [allow_guard 1; cancel_guard 2; allow_guard 3]
                  fresh_world) [allow_guard 1] [allow_guard 3] eq_refl _).
  repeat constructor; discriminate.
Defined.

(** X7.  The remover that [afterEach(hook)] hands back behaves in the
    same way on the hook registry. *)
Theorem afterEach_remover (h : AfterEachHook) (w : World) :
  exists remove,
    afterEach h w = Some (Ok remove, set_afterHooks (afterHooks w ++ [h]) w) /\
    (forall w2 pre post,
        afterHooks w2 = (pre ++ h :: post)%list ->
        Forall (fun k => hook_id k <> hook_id h) pre ->
        remove w2 = Some (Ok tt, set_afterHooks (pre ++ post) w2)) /\
    (forall w2,
        Forall (fun k => hook_id k <> hook_id h) (afterHooks w2) ->
        remove w2 = Some (Ok tt, w2)).
Proof.
  eexists. split; [reflexivity|]. split.
  - intros w2 pre post Hw2 Hpre. unfold modify.
    now rewrite Hw2, remove_hook_first.
  - intros w2 Habs. unfold modify.
    now rewrite remove_hook_absent, set_afterHooks_same.
Qed.

Lemma afterEach_remover_witness :
  exists remove,
    afterEach (recording_hook 7) fresh_world =
      Some (Ok remove, set_afterHooks [recording_hook 7] fresh_world) /\
    remove (set_afterHooks [recording_hook 7] fresh_world) =
      Some (Ok tt, fresh_world) /\
    remove fresh_world = Some (Ok tt, fresh_world).
Proof.
  destruct (afterEach_remover (recording_hook 7) fresh_world)
    as (remove & Hreg & Hrem & Habs).
  exists remove. split; [exact Hreg|]. split.
  - refine (Hrem (set_afterHooks [recording_hook 7] fresh_world) [] [] eq_refl _).
    constructor.
  - apply Habs. constructor.
Defined.


(** ** The two pipelines as a whole *)

Section PipelineFacts.

Variables from to : string.

Lemma hooks_trace_calls hs :
  List.filter is_hook_call (hooks_trace hs from to) = hook_calls hs from to.
Proof.
  induction hs as [|h hs IH]; [reflexivity|].
  cbn [hooks_trace flat_map hook_calls map]. cbn [app List.filter is_hook_call].
  rewrite List.filter_app. fold (hooks_trace hs from to). rewrite IH.
  destruct (hook_fn h from to); reflexivity.
Qed.


(** What [runGuards] does with a registry: its result, the events it
    adds, in any world; the result is [true] exactly when every guard
    allows, and then every guard was called, in order. *)
Lemma runGuards_loop_full gs :
  exists r es,
    (forall w, runGuards_loop gs from to w = Some (Ok r, log es w)) /\
    Forall (fun e => touches_environment e = false) es /\
    (r = RBool true <-> Forall (affirmative from to) gs) /\
    (r = RBool true -> es = guard_calls gs from to) /\
    (exists n, List.filter (fun e => negb (touches_environment e)) es = es /\
               omap (fun e => match e with
                              | GuardCalled id _ _ => Some id
                              | _ => None
                              end) es = map guard_id (take n gs)).
Proof.
  induction gs as [|g gs (r & es & Hrun & Hes & Hiff & Hall & n & Hf & Hids)].
  { exists (RBool true), []. split; [intros w; now rewrite log_nil|].
    split; [constructor|]. split; [split; [constructor|reflexivity]|].
    split; [reflexivity|]. exists 0. split; reflexivity. }
  assert (Hveto : ~ affirmative from to g -> forall r', r' <> RBool true ->
            (r' = RBool true <-> Forall (affirmative from to) (g :: gs))).
  { intros Hna r' Hr'. split; [congruence|]. intros HF. inversion HF. contradiction. }
  destruct (guard_fn g from to) as [[| |s|]|e] eqn:Hg.
  - exists r, (GuardCalled (guard_id g) from to :: es).
    split. { intros w. rewrite runGuards_loop_affirmative by (left; exact Hg).
             now rewrite Hrun, log_log. }
    split; [constructor; auto|]. split.
    { rewrite Hiff. split; [constructor; [left|]; auto | now inversion 1]. }
    split. { intros Hr. cbn. now rewrite (Hall Hr). }
    exists (S n). cbn. rewrite Hf, Hids. split; reflexivity.
  - exists (RBool false), [GuardCalled (guard_id g) from to].
    split; [intros w; now apply runGuards_loop_false|].
    split; [repeat constructor|]. split.
    { apply Hveto; [|discriminate]. intros [H|H]; congruence. }
    split; [discriminate|]. exists 1. split; reflexivity.
  - exists (RString s), [GuardCalled (guard_id g) from to].
    split; [intros w; now apply runGuards_loop_string|].
    split; [repeat constructor|]. split.
    { apply Hveto; [|discriminate]. intros [H|H]; congruence. }
    split; [discriminate|]. exists 1. split; reflexivity.
  - exists r, (GuardCalled (guard_id g) from to :: es).
    split. { intros w. rewrite runGuards_loop_affirmative by (right; exact Hg).
             now rewrite Hrun, log_log. }
    split; [constructor; auto|]. split.
    { rewrite Hiff. split; [constructor; [right|]; auto | now inversion 1]. }
    split. { intros Hr. cbn. now rewrite (Hall Hr). }
    exists (S n). cbn. rewrite Hf, Hids. split; reflexivity.
  - exists (RBool false),
      [GuardCalled (guard_id g) from to; ConsoleError guard_error_msg e].
    split; [intros w; now apply runGuards_loop_raises|].
    split; [repeat constructor|]. split.
    { apply Hveto; [|discriminate]. intros [H|H]; congruence. }
    split; [discriminate|]. exists 1. split; reflexivity.
Qed.

End PipelineFacts.

(** X8.  [runAfterHooks] never throws and calls every registered hook
    exactly once, in registration order, with [(from, to)]: a hook that
    throws is logged with [console.error] and the hooks after it still
    run.  Nothing but the trace changes. *)
Theorem runAfterHooks_calls_every_hook (from to : string) (w : World) :
  runAfterHooks from to w =
    Some (Ok tt, log (hooks_trace (afterHooks w) from to) w) /\
  List.filter is_hook_call (hooks_trace (afterHooks w) from to) =
    hook_calls (afterHooks w) from to /\
  (forall h e, In h (afterHooks w) -> hook_fn h from to = Raises e ->
               In (ConsoleError hook_error_msg e)
                  (hooks_trace (afterHooks w) from to)).
Proof.
  split; [apply runAfterHooks_loop_trace|].
  split; [apply hooks_trace_calls|].
  intros h e Hin He. unfold hooks_trace. apply in_flat_map.
  exists h. split; [exact Hin|]. rewrite He. right. now left.
Qed.

(** X9.  [runGuards] never throws, whatever the guards do, and changes
    nothing but the trace, to which it adds guard calls and error logs
    only.  The guards it calls are the first [n] of the registry, in
    order; it returns [true] exactly when every registered guard allows
    the navigation, and has then called them all. *)
Theorem runGuards_verdict (from to : string) (w : World) :
  exists r es,
    runGuards from to w = Some (Ok r, log es w) /\
    Forall (fun e => touches_environment e = false) es /\
    (r = RBool true <-> Forall (affirmative from to) (beforeGuards w)) /\
    (r = RBool true -> es = guard_calls (beforeGuards w) from to) /\
    (exists n, omap (fun e => match e with
                              | GuardCalled id _ _ => Some id
                              | _ => None
                              end) es = map guard_id (take n (beforeGuards w))).
Proof.
  destruct (runGuards_loop_full from to (beforeGuards w))
    as (r & es & Hrun & Hes & Hiff & Hall & n & _ & Hids).
  exists r, es. rewrite runGuards_unfold, Hrun. eauto 10.
Qed.


(** ** Navigation as a whole, redirects included *)

Section NavigationWhole.






End NavigationWhole.


Section NavigationOutcome.



End NavigationOutcome.






(** ** The adapters *)

Section AdapterFacts.

Lemma break_at_spec c s :
  fst (break_at c s) +:+ snd (break_at c s) = s /\
  ~ In c (list_ascii_of_string (fst (break_at c s))) /\
  (snd (break_at c s) = "" /\ ~ In c (list_ascii_of_string s) \/
   exists rest, snd (break_at c s) = String c rest).
Proof.
  induction s as [|x s (IH1 & IH2 & IH3)]; cbn [break_at].
  - split; [reflexivity|]. split; [intros []|]. left. split; [reflexivity|intros []].
  - destruct (Ascii.eqb_spec x c) as [->|Hne].
    + split; [reflexivity|]. split; [intros []|]. right. now exists s.
    + destruct (break_at c s) as [a b]. cbn [fst snd] in *.
      split; [exact (f_equal (String x) IH1)|].
      split; [cbn; intros [H|H]; [now apply Hne | now apply IH2]|].
      destruct IH3 as [(Hb & Hno)|Hex]; [left|now right].
      split; [exact Hb|]. cbn. intros [H|H]; [now apply Hne | now apply Hno].
Qed.

Lemma or_root_nonempty s : or_root s <> "".
Proof. unfold or_root. destruct (String.eqb_spec s ""); [discriminate | assumption]. Qed.

End AdapterFacts.

(** X12.  The hash adapter splits the fragment (the hash without its
    first character) at its first '?': [getCurrentSearch] is the part
    from that '?' on, empty when there is none, and [getCurrentPath] is
    the part before it, with "/" standing in for an empty one.  The path
    is never empty and holds no '?'; path and search put together give
    the fragment back whenever the fragment's path part is not empty. *)
Theorem hash_adapter_splits_fragment (l : Location) :
  let fragment := Str.drop 1 (hash l) in
  let path := getCurrentPath Hash l in
  let search := getCurrentSearch Hash l in
  path <> "" /\
  ~ In "?"%char (list_ascii_of_string path) /\
  (search = "" /\ ~ In "?"%char (list_ascii_of_string fragment) \/
   exists rest, search = String "?" rest) /\
  (path +:+ search = fragment \/
   path = "/" /\ search = fragment).
Proof.
  intros fragment path search.
  destruct (break_at_spec "?" fragment) as (Hcat & Hno & Hsnd).
  subst path search. cbn [getCurrentPath getCurrentSearch]. fold fragment.
  split; [apply or_root_nonempty|].
  split.
  { unfold or_root. destruct (String.eqb_spec (fst (break_at "?" fragment)) "").
    - cbn. intros [H|[]]. discriminate H.
    - exact Hno. }
  split; [exact Hsnd|].
  unfold or_root. destruct (String.eqb_spec (fst (break_at "?" fragment)) "") as [He|_].
  - right. split; [reflexivity|]. rewrite <- Hcat at 2. now rewrite He.
  - now left.
Qed.


Section RoundTripFacts.

Lemma str_app_nil a : a +:+ "" = a.
Proof. induction a as [|x a IH]; [reflexivity|]. exact (f_equal (String x) IH). Qed.

Lemma str_app_assoc a b c : (a +:+ b) +:+ c = a +:+ b +:+ c.
Proof. induction a as [|x a IH]; [reflexivity|]. exact (f_equal (String x) IH). Qed.

Lemma chars_app a b :
  list_ascii_of_string (a +:+ b) =
  (list_ascii_of_string a ++ list_ascii_of_string b)%list.
Proof. induction a as [|c a IH]; [reflexivity|]. cbn. now rewrite <- IH. Qed.

Lemma chars_all_app f a b :
  chars_all f (a +:+ b) = chars_all f a && chars_all f b.
Proof. unfold chars_all. now rewrite chars_app, forallb_app. Qed.

Lemma chars_all_not_in f c s :
  chars_all f s = true -> f c = false -> ~ In c (list_ascii_of_string s).
Proof.
  unfold chars_all. rewrite forallb_forall. intros Hall Hc Hin.
  apply Hall in Hin. congruence.
Qed.

Lemma break_at_absent c s :
  ~ In c (list_ascii_of_string s) -> break_at c s = (s, "").
Proof.
  induction s as [|x s IH]; [reflexivity|]. cbn. intros Hno.
  destruct (Ascii.eqb_spec x c) as [->|_]; [exfalso; apply Hno; now left|].
  rewrite IH; [reflexivity|]. intros H. apply Hno. now right.
Qed.

Lemma break_at_first c a b :
  ~ In c (list_ascii_of_string a) ->
  break_at c (a +:+ String c b) = (a, String c b).
Proof.
  induction a as [|x a IH]; intros Hno.
  - change ("" +:+ String c b) with (String c b). cbn [break_at].
    destruct (Ascii.eqb_spec c c); [reflexivity | congruence].
  - change (String x a +:+ String c b) with (String x (a +:+ String c b)).
    cbn [break_at].
    destruct (Ascii.eqb_spec x c) as [->|_]; [exfalso; apply Hno; now left|].
    rewrite IH; [reflexivity|]. intros H. apply Hno. now right.
Qed.

(** A plain path or search string ends where it should when a URL is
    taken apart. *)
Lemma break_path_search c p s :
  ~ In c (list_ascii_of_string p) ->
  (s = "" \/ exists q, s = String c q) ->
  break_at c (p +:+ s) = (p, s).
Proof.
  intros Hp [->|(q & ->)].
  - rewrite str_app_nil. now apply break_at_absent.
  - now apply break_at_first.
Qed.

Lemma plain_path_facts p :
  plain_path p = true ->
  p <> "" /\ (forall c, is_path_char c = false -> ~ In c (list_ascii_of_string p)) /\
  exists p', p = String "/" p'.
Proof.
  unfold plain_path. rewrite !andb_true_iff. intros [[Hs Hc] _].
  split; [now destruct p|]. split; [intros c; now apply chars_all_not_in|].
  destruct p as [|x p']; [discriminate|]. cbn in Hs. unfold Str.is_slash in Hs.
  apply Ascii.eqb_eq in Hs. subst x. now exists p'.
Qed.

Lemma plain_search_facts s :
  plain_search s = true ->
  (s = "" \/ exists q, s = String "?" q) /\ s <> "?" /\
  (forall c, is_search_char c = false -> c <> "?"%char ->
             ~ In c (list_ascii_of_string s)).
Proof.
  destruct s as [|c q]; cbn [plain_search].
  - intros _. split; [now left|]. split; [discriminate|]. intros c _ _ [].
  - rewrite !andb_true_iff, negb_true_iff. intros [[Hc Hq] Hall].
    apply Ascii.eqb_eq in Hc. subst c.
    split; [right; now exists q|].
    split; [intros [= ->]; discriminate Hq|].
    intros c Hc Hne [H|H]; [congruence|].
    now apply (chars_all_not_in _ _ _ Hall Hc).
Qed.

Lemma app_nonempty a b : a <> "" -> a +:+ b <> "".
Proof. destruct a; [congruence | discriminate]. Qed.

(** Taking apart the URL [org ++ path ++ search ++ fragment]. *)
Lemma location_of_plain_url org path s :
  (forall c, is_path_char c = false -> ~ In c (list_ascii_of_string path)) ->
  plain_search s = true ->
  location_of_url org (org +:+ path +:+ s) = mkLocation org path s "".
Proof.
  intros Hp Hs. destruct (plain_search_facts s Hs) as (Hshape & Hne & Hchars).
  unfold location_of_url. rewrite drop_app.
  rewrite (break_at_absent "#" (path +:+ s)).
  2:{ rewrite chars_app, in_app_iff. intros [H|H].
      - now apply (Hp "#"%char).
      - now apply (Hchars "#"%char). }
  rewrite (break_path_search "?" path s (Hp "?"%char eq_refl) Hshape).
  destruct (String.eqb_spec s "?"); [contradiction|]. reflexivity.
Qed.

Lemma plain_chars_app a b :
  (forall c, is_path_char c = false -> ~ In c (list_ascii_of_string a)) ->
  (forall c, is_path_char c = false -> ~ In c (list_ascii_of_string b)) ->
  forall c, is_path_char c = false -> ~ In c (list_ascii_of_string (a +:+ b)).
Proof.
  intros Ha Hb c Hc. rewrite chars_app, in_app_iff.
  intros [H|H]; [now apply (Ha c) | now apply (Hb c)].
Qed.

(** After a navigation in hash mode the fragment is the path followed by
    the search string. *)
Lemma hash_reads_back o pn sr p s :
  plain_path p = true -> plain_search s = true ->
  let l := mkLocation o pn sr ("#" +:+ p +:+ s) in
  getCurrentPath Hash l = p /\ getCurrentSearch Hash l = s.
Proof.
  intros Hp Hs l. destruct (plain_path_facts p Hp) as (Hne & Hchars & _).
  destruct (plain_search_facts s Hs) as (Hshape & _ & _).
  unfold getCurrentPath, getCurrentSearch. cbn [hash l].
  change (Str.drop 1 ("#" +:+ p +:+ s)) with (p +:+ s).
  rewrite (break_path_search "?" p s (Hchars "?"%char eq_refl) Hshape).
  cbn [fst snd]. split; [|reflexivity].
  unfold or_root. destruct (String.eqb_spec p ""); [contradiction | reflexivity].
Qed.

End RoundTripFacts.

(** X13.  What a navigation writes, the adapter reads back.  For a plain
    path and a plain search string, after [adapter.push(path, search)] as
    after [adapter.replace(path, search)], [getCurrentPath] returns the
    path and [getCurrentSearch] the search string, in history mode with
    any plain base as in hash mode; the origin stays. *)
Theorem adapter_reads_back_navigation
    (a : IRouterModeAdapter) (l : Location) (path s : string) :
  plain_adapter a l = true ->
  plain_path path = true ->
  plain_search s = true ->
  let pushed := location_after_push a l path s in
  let replaced := location_after_replace a l path s in
  getCurrentPath a pushed = path /\
  getCurrentSearch a pushed = s /\
  getCurrentPath a replaced = path /\
  getCurrentSearch a replaced = s /\
  origin pushed = origin l /\
  origin replaced = origin l.
Proof.
  intros Ha Hp Hs.
  destruct (plain_path_facts path Hp) as (Hne & Hchars & p' & Hslash).
  destruct a as [base|]; cbn [plain_adapter] in Ha.
  - assert (Hb : forall c, is_path_char c = false ->
                           ~ In c (list_ascii_of_string base)).
    { apply orb_true_iff in Ha. destruct Ha as [Ha|Ha].
      - apply String.eqb_eq in Ha. subst base. intros c _ [].
      - now destruct (plain_path_facts base Ha) as (_ & H & _). }
    assert (Hl : location_of_url (origin l) (buildUrl (History base) l path s) =
                 mkLocation (origin l) (base +:+ path) s "").
    { cbn [buildUrl]. rewrite <- (str_app_assoc base path s).
      apply location_of_plain_url; [|exact Hs]. now apply plain_chars_app. }
    cbn zeta. unfold location_after_push, location_after_replace. rewrite Hl.
    rewrite history_getCurrentPath. cbn [getCurrentSearch search origin].
    unfold or_root. destruct (String.eqb_spec path ""); [contradiction|].
    repeat split; reflexivity.
  - destruct (plain_path_facts (pathname l) Ha) as (_ & Hpn & _).
    assert (Hpush : location_after_push Hash l path s =
                    mkLocation (origin l) (pathname l) (search l)
                      ("#" +:+ path +:+ s)).
    { cbn [location_after_push]. unfold location_set_hash. subst path.
      change (String "/" p' +:+ s) with (String "/" (p' +:+ s)).
      reflexivity. }
    assert (Hrep : location_after_replace Hash l path s =
                   mkLocation (origin l) (pathname l) ""
                     ("#" +:+ path +:+ s)).
    { unfold location_after_replace, location_of_url. cbn [buildUrl].
      rewrite drop_app.
      change (pathname l +:+ "#" +:+ path +:+ s)
        with (pathname l +:+ String "#" (path +:+ s)).
      rewrite (break_at_first "#" _ _ (Hpn "#"%char eq_refl)).
      rewrite (break_at_absent "?" _ (Hpn "?"%char eq_refl)).
      cbn [String.eqb]. subst path. reflexivity. }
    cbn zeta. rewrite Hpush, Hrep.
    destruct (hash_reads_back (origin l) (pathname l) (search l) path s Hp Hs)
      as (H1 & H2).
    destruct (hash_reads_back (origin l) (pathname l) "" path s Hp Hs)
      as (H3 & H4).
    repeat split; assumption.
Qed.

Lemma adapter_reads_back_navigation_witness :
  let l := mkLocation "https://example.com" "/site/index.html" "?old=1" "#/home" in
  getCurrentPath Hash (location_after_push Hash l "/users/42" "?tab=a%20b") =
    "/users/42" /\
  getCurrentSearch (HistoryModeAdapter "/app/")
    (location_after_replace (HistoryModeAdapter "/app/") l "/users/42" "?tab=a%20b") =
    "?tab=a%20b".
Proof.
  intros l.
  destruct (adapter_reads_back_navigation Hash l "/users/42" "?tab=a%20b"
              eq_refl eq_refl eq_refl) as (H1 & _).
  destruct (adapter_reads_back_navigation (HistoryModeAdapter "/app/") l
              "/users/42" "?tab=a%20b" eq_refl eq_refl eq_refl)
    as (_ & _ & _ & H4 & _).
  split; [exact H1 | exact H4].
Defined.


(** X14.  The adapter is a singleton.  [getRouterMode] after
    [createRouterMode] returns the adapter that was created and changes
    nothing; a second [getRouterMode] returns what the first returned;
    after [resetRouterMode] it creates the history adapter with an empty
    base, whatever was installed before.  One trailing slash of the base
    makes no difference to the history adapter, and the hash adapter
    ignores the base altogether. *)
Theorem router_mode_singleton
    (mode : RouterMode) (base : option string) (b : string) (w : World) :
  (a ← createRouterMode mode base; a' ← getRouterMode; mret (a, a')) w =
    (a ← createRouterMode mode base; mret (a, a)) w /\
  (a ← getRouterMode; a' ← getRouterMode; mret (a, a')) w =
    (a ← getRouterMode; mret (a, a)) w /\
  (resetRouterMode;; getRouterMode) w =
    Some (Ok (History ""), set_currentAdapter (Some (History "")) w) /\
  createRouterMode ModeHistory (Some (b +:+ "/")) w =
    Some (Ok (History b), set_currentAdapter (Some (History b)) w) /\
  createRouterMode ModeHash base w =
    Some (Ok Hash, set_currentAdapter (Some Hash) w).
Proof.
  split; [reflexivity|].
  split; [destruct w as [l [a|] h gs hs es]; reflexivity|].
  split; [reflexivity|].
  split; [|reflexivity].
  unfold createRouterMode, HistoryModeAdapter. cbv zeta. cbn [default from_option id].
  rewrite strip_trailing_slash_snoc. reflexivity.
Qed.


(** ** The search string *)

Section SearchStringFacts.

Lemma hex_digit_unreserved n : (n < 16)%N -> is_unreserved (hex_digit n) = true.
Proof.
  intros Hn. destruct n as [|p]; [reflexivity|].
  do 4 (destruct p as [p|p|]; try reflexivity; try lia).
Qed.

Lemma encodeURIComponent_chars s :
  chars_all is_encoded_char (encodeURIComponent s) = true.
Proof.
  induction s as [|c s IH]; [reflexivity|]. cbn [encodeURIComponent].
  destruct (is_unreserved c) eqn:Hc.
  - unfold chars_all in *. cbn [list_ascii_of_string forallb].
    rewrite IH. unfold is_encoded_char. now rewrite Hc.
  - pose proof (N_ascii_bounded c) as Hb.
    assert (H1 : (N_of_ascii c / 16 < 16)%N)
      by (apply N.Div0.div_lt_upper_bound; lia).
    assert (H2 : (N_of_ascii c mod 16 < 16)%N) by (apply N.mod_lt; lia).
    unfold chars_all in *. cbn [list_ascii_of_string forallb]. rewrite IH.
    unfold is_encoded_char at 2 3.
    rewrite (hex_digit_unreserved _ H1), (hex_digit_unreserved _ H2).
    reflexivity.
Qed.

Lemma count_char_app c a b :
  count_char c (a +:+ b) = count_char c a + count_char c b.
Proof. unfold count_char. now rewrite chars_app, List.filter_app, length_app. Qed.

Lemma count_char_absent f c s :
  chars_all f s = true -> f c = false -> count_char c s = 0.
Proof.
  unfold chars_all, count_char. induction s as [|x s IH]; [reflexivity|].
  cbn [list_ascii_of_string forallb List.filter]. intros H Hc.
  apply andb_true_iff in H. destruct H as [Hx Hs].
  destruct (Ascii.eqb_spec c x) as [->|_]; [congruence|]. now apply IH.
Qed.

Lemma chars_all_weaken (f g : ascii -> bool) s :
  (forall c, f c = true -> g c = true) ->
  chars_all f s = true -> chars_all g s = true.
Proof.
  unfold chars_all. rewrite !forallb_forall. intros Hfg H c Hc. auto.
Qed.

Lemma encoded_built c : is_encoded_char c = true -> is_built_char c = true.
Proof. unfold is_built_char. now intros ->. Qed.

(** One entry, [encodeURIComponent(key)=encodeURIComponent(String(value))]. *)
Lemma entry_shape k v :
  let e := encodeURIComponent k +:+ "=" +:+ encodeURIComponent v in
  chars_all is_built_char e = true /\
  count_char "=" e = 1 /\ count_char "&" e = 0.
Proof.
  intros e. subst e.
  pose proof (encodeURIComponent_chars k) as Hk.
  pose proof (encodeURIComponent_chars v) as Hv.
  split; [|split].
  - rewrite !chars_all_app.
    rewrite (chars_all_weaken _ _ _ encoded_built Hk).
    rewrite (chars_all_weaken _ _ _ encoded_built Hv). reflexivity.
  - rewrite !count_char_app.
    rewrite (count_char_absent _ "=" _ Hk eq_refl).
    rewrite (count_char_absent _ "=" _ Hv eq_refl). reflexivity.
  - rewrite !count_char_app.
    rewrite (count_char_absent _ "&" _ Hk eq_refl).
    rewrite (count_char_absent _ "&" _ Hv eq_refl). reflexivity.
Qed.

Lemma join_amp_cons e e' es :
  join_amp (e :: e' :: es) = e +:+ "&" +:+ join_amp (e' :: es).
Proof. reflexivity. Qed.

Lemma join_amp_shape es :
  Forall (fun e => chars_all is_built_char e = true /\
                   count_char "=" e = 1 /\ count_char "&" e = 0) es ->
  chars_all is_built_char (join_amp es) = true /\
  count_char "=" (join_amp es) = length es /\
  count_char "&" (join_amp es) = length es - 1.
Proof.
  induction 1 as [|e es (He1 & He2 & He3) Hes (IH1 & IH2 & IH3)];
    [repeat split; reflexivity|].
  destruct es as [|e' es]; [cbn [join_amp length]; repeat split; assumption|].
  rewrite join_amp_cons, !chars_all_app, !count_char_app, He1, He2, He3, IH1, IH2, IH3.
  cbn [length]. repeat split; try reflexivity.
  change (count_char "&" "&") with 1. cbn [length] in *. lia.
Qed.

Lemma buildSearchString_entries query :
  buildSearchString query =
  let entries :=
    map (fun '(key, value) =>
           encodeURIComponent key +:+ "=" +:+ encodeURIComponent (show_value value))
        (present_entries query) in
  if (0 <? length entries)%nat then "?" +:+ join_amp entries else "".
Proof. destruct query; reflexivity. Qed.

End SearchStringFacts.

(** X15.  The search string that [buildSearchString] builds.  It is empty
    exactly when the query has no entry other than [undefined] and [null]
    ones.  Otherwise it is a '?' followed by a body made only of the
    characters that [encodeURIComponent] keeps, '%', '=' and '&', in which
    '=' occurs once per kept entry and '&' once between two of them:
    whatever the keys and values hold, they add no separator, no '?' and
    no '#'. *)
Theorem buildSearchString_shape (query : option QueryParams) :
  match present_entries query with
  | [] => buildSearchString query = ""
  | kept =>
      exists body,
        buildSearchString query = String "?" body /\
        chars_all is_built_char body = true /\
        count_char "=" body = length kept /\
        count_char "&" body = length kept - 1 /\
        count_char "?" body = 0 /\
        count_char "#" body = 0
  end.
Proof.
  rewrite buildSearchString_entries.
  generalize (present_entries query). intros [|kv kept']; [reflexivity|].
  set (kept := kv :: kept').
  set (entries := map _ kept).
  assert (Hshape : Forall (fun e => chars_all is_built_char e = true /\
                     count_char "=" e = 1 /\ count_char "&" e = 0) entries).
  { subst entries. apply Forall_map. apply Forall_forall.
    intros [k v] _. apply entry_shape. }
  assert (Hlen : length entries = length kept) by apply length_map.
  destruct (join_amp_shape entries Hshape) as (H1 & H2 & H3).
  replace (0 <? length entries)%nat with true
    by (symmetry; apply Nat.ltb_lt; rewrite Hlen; cbn; lia).
  exists (join_amp entries). rewrite <- Hlen.
  repeat split; try assumption.
  - now apply (count_char_absent _ "?" _ H1).
  - now apply (count_char_absent _ "#" _ H1).
Qed.


(** ** The caches over time *)

Section CacheHistoryFacts.

Variable ptr : string -> result PathToRegexp.t.

Lemma cache_step_coherent c call :
  coherent ptr c -> coherent ptr (cache_step ptr c call).
Proof.
  intros Hc. destruct call as [path|path|]; cbn [cache_step].
  - now apply getRegexp_cached_transparent.
  - now apply getKeys_cached_transparent.
  - apply clearMatcherCache_coherent.
Qed.

Lemma fold_cache_step_coherent calls c :
  coherent ptr c -> coherent ptr (fold_left (cache_step ptr) calls c).
Proof.
  revert c. induction calls as [|call calls IH]; intros c Hc; [exact Hc|].
  cbn [fold_left]. apply IH. now apply cache_step_coherent.
Qed.

Lemma caches_after_coherent calls : coherent ptr (caches_after ptr calls).
Proof.
  apply fold_cache_step_coherent. intros path. cbn. now rewrite !lookup_empty.
Qed.

End CacheHistoryFacts.

(** X16.  The caches never change an answer.  After any sequence of calls
    of [getRegexp], [getKeys] and [clearMatcherCache], a lookup through
    the caches returns what the compiler returns for the template, its
    error included; the two caches hold the same templates; and a template
    is in the caches only if the compiler accepts it. *)
Theorem matcher_caches_transparent
    (pathToRegexp : string -> result PathToRegexp.t)
    (calls : list CacheCall) (path : string) :
  let c := caches_after pathToRegexp calls in
  fst (getRegexp_cached pathToRegexp path c) = getRegexp pathToRegexp path /\
  fst (getKeys_cached pathToRegexp path c) = getKeys pathToRegexp path /\
  (is_Some (regexpCache c !! path) <-> is_Some (keysCache c !! path)) /\
  (is_Some (regexpCache c !! path) -> exists p, pathToRegexp path = Ok p).
Proof.
  intros c. pose proof (caches_after_coherent pathToRegexp calls) as Hc. fold c in Hc.
  split; [now apply getRegexp_cached_transparent|].
  split; [now apply getKeys_cached_transparent|].
  specialize (Hc path).
  destruct (regexpCache c !! path) as [re|], (keysCache c !! path) as [ks|];
    try contradiction.
  - destruct Hc as (p & Hp & _). split; [split; eauto | eauto].
  - split; [split; intros [? [=]] | intros [? [=]]].
Qed.


(** ** utils *)

Module UtilsFacts.
Import Str StrFacts SegmentFacts.

Lemma replace_first_starts s :
  starts_with_slash (replace_first_double_slash s) = starts_with_slash s.
Proof.
  destruct s as [|c s]; [reflexivity|]. cbn [replace_first_double_slash].
  destruct (is_slash c && starts_with_slash s) eqn:E; [|reflexivity].
  apply andb_true_iff in E. destruct E as [Ec Es].
  cbn [starts_with_slash]. now rewrite Ec, Es.
Qed.

Lemma collapse_replace_first s :
  collapse_slashes (replace_first_double_slash s) = collapse_slashes s.
Proof.
  induction s as [|c s IH]; [reflexivity|].
  cbn [replace_first_double_slash collapse_slashes].
  destruct (is_slash c && starts_with_slash s) eqn:E; [reflexivity|].
  cbn [collapse_slashes]. now rewrite replace_first_starts, E, IH.
Qed.

Lemma replace_first_fixed s :
  has_double_slash s = false -> replace_first_double_slash s = s.
Proof.
  induction s as [|c s IH]; [reflexivity|]. rewrite has_double_slash_cons.
  intros [H1 H2]%orb_false_iff. cbn [replace_first_double_slash].
  now rewrite H1, IH.
Qed.

Lemma starts_app a b :
  a <> "" -> starts_with_slash (a +:+ b) = starts_with_slash a.
Proof. destruct a; [congruence | reflexivity]. Qed.

(** One replacement is enough after appending a piece to a path without
    a double slash. *)
Lemma replace_first_enough a p :
  has_double_slash a = false ->
  starts_with_slash p = false -> has_double_slash p = false ->
  has_double_slash (replace_first_double_slash (a +:+ "/" +:+ p)) = false.
Proof.
  intros Ha Hp1 Hp2. induction a as [|c a IH].
  - change ("" +:+ "/" +:+ p) with (String "/" p).
    cbn [replace_first_double_slash]. rewrite Hp1, andb_false_r.
    rewrite (replace_first_fixed p Hp2), has_double_slash_cons, Hp1, Hp2.
    now rewrite andb_false_r.
  - rewrite has_double_slash_cons in Ha. apply orb_false_iff in Ha.
    destruct Ha as [Hc Ha]. specialize (IH Ha).
    change (String c a +:+ "/" +:+ p) with (String c (a +:+ "/" +:+ p)).
    cbn [replace_first_double_slash].
    destruct a as [|c' a'].
    + change ("" +:+ "/" +:+ p) with (String "/" p) in *.
      cbn [starts_with_slash]. change (is_slash "/") with true.
      rewrite andb_true_r. destruct (is_slash c) eqn:Ec.
      * rewrite has_double_slash_cons, Hp1, Hp2. now rewrite andb_false_r.
      * rewrite has_double_slash_cons, Ec, IH. reflexivity.
    + rewrite (starts_app (String c' a')) by discriminate. rewrite Hc.
      rewrite has_double_slash_cons, replace_first_starts.
      rewrite (starts_app (String c' a')) by discriminate. now rewrite Hc, IH.
Qed.

Lemma collapse_app_l x y :
  collapse_slashes (collapse_slashes x +:+ y) = collapse_slashes (x +:+ y).
Proof.
  induction x as [|c x IH]; [reflexivity|].
  assert (Hst : starts_with_slash (collapse_slashes x +:+ y) =
                starts_with_slash (x +:+ y)).
  { destruct x as [|c' x']; [reflexivity|].
    rewrite !starts_app; [apply starts_with_slash_collapse|discriminate|].
    apply collapse_nonempty. discriminate. }
  cbn [collapse_slashes].
  destruct (is_slash c && starts_with_slash x) eqn:E.
  - rewrite IH. change (String c x +:+ y) with (String c (x +:+ y)).
    cbn [collapse_slashes].
    apply andb_true_iff in E. destruct E as [Ec Ex].
    rewrite starts_app by (intros ->; discriminate Ex). now rewrite Ec, Ex.
  - change (String c (collapse_slashes x) +:+ y)
      with (String c (collapse_slashes x +:+ y)).
    change (String c x +:+ y) with (String c (x +:+ y)).
    cbn [collapse_slashes]. rewrite Hst, IH. reflexivity.
Qed.

Lemma split_pieces s :
  Forall (fun x => starts_with_slash x = false /\ has_double_slash x = false)
    (PathToRegexpModel.split_slash s).
Proof.
  induction s as [|c s IH]; [repeat constructor|].
  cbn [PathToRegexpModel.split_slash]. destruct (is_slash c) eqn:Ec.
  - constructor; [split; reflexivity | exact IH].
  - destruct (split_nonnil s) as (x & r & Hs). rewrite Hs in *.
    inversion IH as [|? ? [Hx1 Hx2] Hr]; subst. constructor; [|exact Hr].
    split; [exact Ec|]. rewrite has_double_slash_cons, Ec, Hx2. reflexivity.
Qed.

Lemma join_snoc l p :
  l <> [] -> join_slash (l ++ [p]) = join_slash l +:+ "/" +:+ p.
Proof.
  induction l as [|a l IH]; [congruence|]. intros _.
  destruct l as [|b l]; [reflexivity|].
  change ((a :: b :: l) ++ [p])%list with (a :: (b :: l) ++ [p])%list.
  change ((b :: l) ++ [p])%list with (b :: l ++ [p])%list.
  rewrite !join_cons_cons. change (b :: l ++ [p])%list with ((b :: l) ++ [p])%list.
  rewrite IH by discriminate. now rewrite !str_app_assoc.
Qed.

(** The entry that the loop pushes after the pieces [done]. *)
Lemma pathname2paths_entry done p rest :
  starts_with_slash p = false -> has_double_slash p = false ->
  replace_first_double_slash
    (default "" (last (map (prefix_path (done ++ p :: rest))
                         (seq 1 (length done)))) +:+ "/" +:+ p) =
  prefix_path (done ++ p :: rest) (S (length done)).
Proof.
  intros Hp1 Hp2. unfold prefix_path at 2.
  replace (take (S (length done)) (done ++ p :: rest)) with (done ++ [p])%list.
  2:{ clear. induction done as [|d done IH]; [reflexivity|].
      cbn [length app take]. now rewrite <- IH. }
  destruct done as [|d done'] using rev_ind.
  - cbn [length seq map last default from_option id app join_slash].
    change ("" +:+ "/" +:+ p) with ("/" +:+ p).
    rewrite <- (collapse_fixed (replace_first_double_slash ("/" +:+ p))).
    + apply collapse_replace_first.
    + now apply (replace_first_enough "" p).
  - clear IHdone'. rewrite length_app. cbn [length].
    replace (length done' + 1) with (S (length done')) by lia.
    rewrite seq_S, map_app. cbn [map]. rewrite last_snoc. cbn [default from_option id].
    unfold prefix_path.
    replace (take (1 + length done') ((done' ++ [d]) ++ p :: rest))
      with (done' ++ [d])%list.
    2:{ rewrite take_app_length'; [reflexivity|]. rewrite length_app. cbn. lia. }
    set (a := collapse_slashes ("/" +:+ join_slash (done' ++ [d]))).
    rewrite <- (collapse_fixed (replace_first_double_slash (a +:+ "/" +:+ p))).
    + rewrite collapse_replace_first. subst a. rewrite collapse_app_l.
      rewrite (join_snoc (done' ++ [d]) p) by (intros H; destruct done'; discriminate H).
      now rewrite !str_app_assoc.
    + apply replace_first_enough; [apply has_double_slash_collapse | exact Hp1 | exact Hp2].
Qed.

Lemma pathname2paths_loop_spec rest :
  forall done,
    Forall (fun x => starts_with_slash x = false /\ has_double_slash x = false) rest ->
    pathname2paths_loop rest
      (map (prefix_path (done ++ rest)) (seq 1 (length done))) =
    map (prefix_path (done ++ rest)) (seq 1 (length (done ++ rest))).
Proof.
  induction rest as [|p rest IH]; intros done Hrest.
  - rewrite app_nil_r. reflexivity.
  - inversion Hrest as [|? ? [Hp1 Hp2] Hrest']; subst.
    cbn [pathname2paths_loop]. rewrite (pathname2paths_entry done p rest Hp1 Hp2).
    specialize (IH (done ++ [p])%list Hrest').
    rewrite <- app_assoc in IH. cbn [app] in IH. rewrite <- IH.
    f_equal. rewrite length_app. cbn [length].
    replace (length done + 1) with (S (length done)) by lia.
    now rewrite seq_S, map_app.
Qed.

Lemma pathname2paths_spec pathname :
  pathname2paths pathname =
  map (prefix_path (PathToRegexpModel.split_slash pathname))
    (seq 1 (length (PathToRegexpModel.split_slash pathname))).
Proof.
  unfold pathname2paths.
  exact (pathname2paths_loop_spec _ [] (split_pieces pathname)).
Qed.

End UtilsFacts.

(** X17.  [pathname2paths] lists the cumulative prefixes of a path: one
    entry for every piece of [pathname.split('/')], namely the pieces up
    to it joined behind a '/', with every run of slashes collapsed.  The
    single replacement of the first "//" in each round is enough: every
    entry starts with '/' and holds no "//", and the last entry is the
    whole path behind a '/', collapsed. *)
Theorem pathname2paths_prefixes (pathname : string) :
  let pieces := PathToRegexpModel.split_slash pathname in
  pathname2paths pathname = map (prefix_path pieces) (seq 1 (length pieces)) /\
  last (pathname2paths pathname) =
    Some (Str.collapse_slashes ("/" +:+ pathname)) /\
  Forall (fun entry => Str.starts_with_slash entry = true /\
                       Str.has_double_slash entry = false)
    (pathname2paths pathname).
Proof.
  intros pieces. rewrite UtilsFacts.pathname2paths_spec. fold pieces.
  split; [reflexivity|]. split.
  - destruct (SegmentFacts.split_nonnil pathname) as (x & r & Hs).
    fold pieces in Hs. rewrite Hs. cbn [length]. rewrite seq_S, map_app.
    cbn [map]. rewrite last_snoc. f_equal. unfold prefix_path.
    change (1 + length r) with (length (x :: r)). rewrite firstn_all.
    rewrite <- Hs. unfold pieces. now rewrite SegmentFacts.join_split.
  - apply Forall_map. apply Forall_forall. intros k _. unfold prefix_path.
    split.
    + now rewrite StrFacts.starts_with_slash_collapse.
    + apply StrFacts.has_double_slash_collapse.
Qed.

Section MemoizeFacts.

Context {R : Type}.
Variable fn : string -> R.

Lemma memoize_fold_sound args :
  forall cache,
    (forall a r, cache !! a = Some r -> r = fn a) ->
    forall a r,
      fold_left (fun c arg => snd (memoize fn arg c)) args cache !! a = Some r ->
      r = fn a /\ (In a args \/ cache !! a = Some r).
Proof.
  induction args as [|arg args IH]; intros cache Hc a r H; cbn [fold_left] in H.
  - split; [now apply Hc | now right].
  - apply IH in H.
    + destruct H as (Hr & [Hin|Hl]); split; try assumption; [left; now right|].
      unfold memoize in Hl. destruct (cache !! arg) eqn:E; cbn [snd] in Hl.
      * now right.
      * destruct (decide (arg = a)) as [->|Hne].
        -- left. now left.
        -- rewrite lookup_insert_ne in Hl by exact Hne. now right.
    + intros a' r' H'. unfold memoize in H'.
      destruct (cache !! arg) eqn:E; cbn [snd] in H'; [now apply Hc|].
      destruct (decide (arg = a')) as [->|Hne].
      * rewrite lookup_insert_eq in H'. congruence.
      * rewrite lookup_insert_ne in H' by exact Hne. now apply Hc.
Qed.

Lemma memoize_fold_keeps args :
  forall cache a,
    is_Some (cache !! a) ->
    is_Some (fold_left (fun c arg => snd (memoize fn arg c)) args cache !! a).
Proof.
  induction args as [|arg args IH]; intros cache a H; [exact H|].
  cbn [fold_left]. apply IH. unfold memoize.
  destruct (cache !! arg) eqn:E; cbn [snd]; [exact H|].
  destruct (decide (arg = a)) as [->|Hne].
  - rewrite lookup_insert_eq. eauto.
  - now rewrite lookup_insert_ne by exact Hne.
Qed.

Lemma memoize_fold_complete args :
  forall cache a,
    In a args ->
    is_Some (fold_left (fun c arg => snd (memoize fn arg c)) args cache !! a).
Proof.
  induction args as [|arg args IH]; intros cache a Hin; [destruct Hin|].
  cbn [fold_left]. destruct Hin as [->|Hin]; [|now apply IH].
  apply memoize_fold_keeps. unfold memoize.
  destruct (cache !! a) eqn:E; cbn [snd]; [rewrite E; eauto|].
  rewrite lookup_insert_eq. eauto.
Qed.

Lemma memo_after_sound args a r :
  memo_after fn args !! a = Some r -> r = fn a /\ In a args.
Proof.
  intros H. apply memoize_fold_sound in H.
  - destruct H as (Hr & [Hin|He]); [now split|]. now rewrite lookup_empty in He.
  - intros a' r' He. now rewrite lookup_empty in He.
Qed.

Lemma memoize_after args arg :
  fst (memoize fn arg (memo_after fn args)) = fn arg.
Proof.
  unfold memoize. destruct (memo_after fn args !! arg) as [r|] eqn:E; [|reflexivity].
  cbn [fst]. now destruct (memo_after_sound args arg r E).
Qed.

End MemoizeFacts.

(** X18.  A memoized function answers as the function does.  After any
    calls, [memoize(fn)] returns [fn(arg)] for every argument, and its
    cache holds exactly the arguments it was called with, each with the
    function's result. *)
Theorem memoize_transparent {R : Type} (fn : string -> R)
    (args : list string) (arg : string) :
  fst (memoize fn arg (memo_after fn args)) = fn arg /\
  (memo_after fn args !! arg = Some (fn arg) <-> In arg args) /\
  (memo_after fn args !! arg = None <-> ~ In arg args).
Proof.
  split; [apply memoize_after|].
  assert (Hiff : memo_after fn args !! arg = Some (fn arg) <-> In arg args).
  { split.
    - intros H. now destruct (memo_after_sound fn args arg _ H).
    - intros Hin. destruct (memoize_fold_complete fn args ∅ arg Hin) as (r & Hr).
      fold (memo_after fn args) in Hr.
      destruct (memo_after_sound fn args arg r Hr) as (-> & _). exact Hr. }
  split; [exact Hiff|]. split.
  - intros Hn Hin. apply Hiff in Hin. congruence.
  - intros Hn. destruct (memo_after fn args !! arg) as [r|] eqn:E; [|reflexivity].
    destruct (memo_after_sound fn args arg r E) as (_ & Hin). contradiction.
Qed.


Section MatchPathFacts.

Variable ptr : string -> result PathToRegexp.t.

Lemma matchPath_run regPath realPath compiled cache w :
  String.eqb regPath "/" = false ->
  ptr regPath = Ok compiled ->
  matchPath ptr regPath realPath cache w =
  let a := active_adapter w in
  let memo := memoize pathname2paths (getCurrentPath a (location w)) cache in
  Some (Ok (existsb (PathToRegexp.test (PathToRegexp.regexp compiled)) (fst memo),
            snd memo),
        set_currentAdapter (Some a) w).
Proof.
  intros Hne Hc. unfold matchPath. rewrite Hne, Hc.
  unfold mbind, M_bind. rewrite getRouterMode_run. cbn [get_world location set_currentAdapter].
  cbv zeta. destruct (memoize pathname2paths _ cache) as [paths cache']. reflexivity.
Qed.

End MatchPathFacts.

(** X19.  [matchPath] never looks at [realPath].  For the pattern "/" it
    answers [true] at once; a pattern that does not compile makes it
    throw, before the adapter is asked for.  Otherwise it installs the
    adapter if there was none and answers whether the compiled pattern
    matches one of the cumulative prefixes of the current path: it is
    [true] exactly when some prefix matches, and so whenever the whole
    current path, behind a '/' and with its slashes collapsed, does.  The
    memo cache, whatever calls filled it, does not change the answer. *)
Theorem matchPath_tests_prefixes
    (pathToRegexp : string -> result PathToRegexp.t)
    (regPath realPath : string) (args : list string) (w : World) :
  let cache := memo_after pathname2paths args in
  let a := active_adapter w in
  let current := getCurrentPath a (location w) in
  let pieces := PathToRegexpModel.split_slash current in
  if String.eqb regPath "/" then
    matchPath pathToRegexp regPath realPath cache w = Some (Ok (true, cache), w)
  else
    match pathToRegexp regPath with
    | Throw e =>
        matchPath pathToRegexp regPath realPath cache w = Some (Throw e, w)
    | Ok compiled =>
        let reg := PathToRegexp.regexp compiled in
        exists b,
          matchPath pathToRegexp regPath realPath cache w =
            Some (Ok (b, snd (memoize pathname2paths current cache)),
                  set_currentAdapter (Some a) w) /\
          (b = true <->
           exists k, 1 <= k <= length pieces /\
                     PathToRegexp.test reg (prefix_path pieces k) = true) /\
          (PathToRegexp.test reg (Str.collapse_slashes ("/" +:+ current)) = true ->
           b = true)
    end.
Proof.
  intros cache a current pieces.
  destruct (String.eqb regPath "/") eqn:Hne.
  { unfold matchPath. now rewrite Hne. }
  destruct (pathToRegexp regPath) as [compiled|e] eqn:Hc.
  2:{ unfold matchPath. now rewrite Hne, Hc. }
  intros reg.
  exists (existsb (PathToRegexp.test reg) (pathname2paths current)).
  destruct (pathname2paths_prefixes current) as (Hspec & Hlast & _).
  split; [|split].
  - rewrite (matchPath_run pathToRegexp regPath realPath compiled cache w Hne Hc).
    cbv zeta. fold a current. unfold cache. now rewrite memoize_after.
  - rewrite existsb_exists, Hspec. fold pieces. split.
    + intros (x & Hin & Hx). apply in_map_iff in Hin.
      destruct Hin as (k & <- & Hk). apply in_seq in Hk.
      exists k. split; [lia | exact Hx].
    + intros (k & Hk & Hx). exists (prefix_path pieces k). split; [|exact Hx].
      apply in_map_iff. exists k. split; [reflexivity|]. apply in_seq. lia.
  - intros Ht. apply existsb_exists. exists (Str.collapse_slashes ("/" +:+ current)).
    split; [|exact Ht].
    apply last_Some in Hlast. destruct Hlast as (l' & ->).
    apply in_or_app. right. now left.
Qed.


(** ** When [matchRoute] finds nothing *)

Section NoMatchFacts.

Variable ptr : string -> result PathToRegexp.t.

Lemma fullPathOf_nonempty prefix r : fullPathOf prefix r <> "".
Proof. apply normalizePath_nonempty. Qed.

Lemma matchRoute_none_level routes :
  forall pathname prefix,
    Forall (fun r => is_root_case prefix r = false) routes ->
    matchRoute ptr routes pathname prefix = Ok None ->
    Forall (fails_on ptr (normalizePath pathname)) (templates_below prefix routes).
Proof.
  induction routes as [|r rs IH]; intros pathname prefix Hroot.
  { intros _. constructor. }
  inversion Hroot as [|? ? Hcase Hroot']; subst.
  rewrite matchRoute_cons, matchRoute_iter_unfold. cbv zeta.
  set (np := normalizePath pathname). set (fp := fullPathOf prefix r).
  rewrite Hcase. unfold getRegexp.
  destruct (ptr fp) as [c|e] eqn:Hfp; simpl; [|discriminate].
  destruct (PathToRegexp.test (PathToRegexp.regexp c) np) eqn:Ht.
  { unfold and_then. rewrite children_first_spec.
    destruct (matchRoute ptr (children r) np fp) as [[m'|]|e]; simpl; try discriminate.
    destruct (extractParams ptr fp np); discriminate. }
  rewrite children_first_spec.
  destruct (matchRoute ptr (children r) np fp) as [[m'|]|e] eqn:Hc; simpl;
    try discriminate.
  intros Hrest. cbn [templates_below flat_map]. rewrite templates_under_unfold.
  fold fp. apply Forall_app. split; [|now apply IH].
  constructor; [exists c; auto|].
  apply matchRoute_none in Hc; [|apply fullPathOf_nonempty].
  unfold np in Hc. now rewrite normalizePath_idempotent in Hc.
Qed.

Lemma not_root_under prefix routes :
  prefix <> "" -> Forall (fun r => is_root_case prefix r = false) routes.
Proof.
  intros Hp. apply Forall_forall. intros r _. unfold is_root_case.
  apply andb_false_iff. right. now apply String.eqb_neq.
Qed.

Lemma matchRoute_all_fail routes :
  forall pathname prefix,
    Forall (fun r => is_root_case prefix r = false) routes ->
    Forall (fails_on ptr (normalizePath pathname)) (templates_below prefix routes) ->
    matchRoute ptr routes pathname prefix = Ok None.
Proof.
  induction routes as [|r rs IHc IHrs] using forest_ind;
    intros pathname prefix Hroot Hfail; [reflexivity|].
  inversion Hroot as [|? ? Hcase Hroot']; subst.
  cbn [templates_below flat_map] in Hfail. rewrite templates_under_unfold in Hfail.
  apply Forall_app in Hfail. destruct Hfail as [Hnode Hrest].
  inversion Hnode as [|? ? (c & Hfp & Ht) Hkids]; subst.
  rewrite matchRoute_cons, matchRoute_iter_unfold. cbv zeta.
  set (np := normalizePath pathname) in *. set (fp := fullPathOf prefix r) in *.
  rewrite Hcase. unfold getRegexp. rewrite Hfp. simpl. rewrite Ht.
  rewrite children_first_spec.
  rewrite (IHc np fp).
  - simpl. now apply IHrs.
  - apply not_root_under, fullPathOf_nonempty.
  - unfold np. now rewrite normalizePath_idempotent.
Qed.

End NoMatchFacts.

(** X20.  When [matchRoute] finds nothing.  For a list of routes that is
    searched under a prefix other than the empty one, or that has no "/"
    route, [matchRoute] returns [null] exactly when the template of every
    route of the forest, at every depth, compiles and fails on the
    normalized pathname: no route is left untried, under a parent that
    fails as under one that matches. *)
Theorem matchRoute_null_iff
    (pathToRegexp : string -> result PathToRegexp.t)
    (routes : list IRoute) (pathname prefix : string) :
  Forall (fun r => is_root_case prefix r = false) routes ->
  (matchRoute pathToRegexp routes pathname prefix = Ok None <->
   Forall (fails_on pathToRegexp (normalizePath pathname))
     (templates_below prefix routes)).
Proof.
  intros Hroot. split.
  - now apply matchRoute_none_level.
  - now apply matchRoute_all_fail.
Qed.

Lemma matchRoute_null_iff_witness :
  let routes := [plain_route "users" [plain_route ":id" []];
                 plain_route "about" []] in
  templates_below "" routes = ["/users"; "/users/:id"; "/about"] /\
  matchRoute PathToRegexpModel.pathToRegexp routes "/users/42/edit" "" = Ok None.
Proof.
  intros routes. split; [reflexivity|].
  apply (matchRoute_null_iff PathToRegexpModel.pathToRegexp routes
           "/users/42/edit" "").
  - repeat constructor.
  - repeat (constructor; [eexists; split; reflexivity|]). constructor.
Defined.


(** ** Counting the registries *)

Section CountFacts.

Lemma remove_guard_snoc_length g gs :
  length (remove_guard (guard_id g) (gs ++ [g])) = length gs.
Proof.
  induction gs as [|k gs IH]; cbn [app remove_guard length].
  - now rewrite Nat.eqb_refl.
  - destruct (Nat.eqb (guard_id k) (guard_id g)); [|cbn [length]; now rewrite IH].
    rewrite length_app. cbn [length]. lia.
Qed.

Lemma remove_hook_snoc_length h hs :
  length (remove_hook (hook_id h) (hs ++ [h])) = length hs.
Proof.
  induction hs as [|k hs IH]; cbn [app remove_hook length].
  - now rewrite Nat.eqb_refl.
  - destruct (Nat.eqb (hook_id k) (hook_id h)); [|cbn [length]; now rewrite IH].
    rewrite length_app. cbn [length]. lia.
Qed.

Lemma remove_guard_snoc_fresh g gs :
  Forall (fun k => guard_id k <> guard_id g) gs ->
  remove_guard (guard_id g) (gs ++ [g]) = gs.
Proof.
  intros H. rewrite (remove_guard_first (guard_id g) gs g [] eq_refl H).
  apply app_nil_r.
Qed.

Lemma remove_hook_snoc_fresh h hs :
  Forall (fun k => hook_id k <> hook_id h) hs ->
  remove_hook (hook_id h) (hs ++ [h]) = hs.
Proof.
  intros H. rewrite (remove_hook_first (hook_id h) hs h [] eq_refl H).
  apply app_nil_r.
Qed.

End CountFacts.

(** X21.  The counts follow the registrations.  Registering a guard or a
    hook raises its count by one; calling the remover right away brings
    the count back, and brings the whole state back when that guard or
    hook was not registered before.  After [clearGuards] both counts are
    zero and [runGuards] allows every navigation without calling
    anything. *)
Theorem registry_counts
    (g : NavigationGuard) (h : AfterEachHook) (from to : string) (w : World) :
  (beforeEach g;; getBeforeGuardsCount) w =
    Some (Ok (S (length (beforeGuards w))),
          set_beforeGuards (beforeGuards w ++ [g]) w) /\
  (afterEach h;; getAfterHooksCount) w =
    Some (Ok (S (length (afterHooks w))),
          set_afterHooks (afterHooks w ++ [h]) w) /\
  (exists w',
      (remove ← beforeEach g; remove;; getBeforeGuardsCount) w =
        Some (Ok (length (beforeGuards w)), w') /\
      (Forall (fun k => guard_id k <> guard_id g) (beforeGuards w) -> w' = w)) /\
  (exists w',
      (remove ← afterEach h; remove;; getAfterHooksCount) w =
        Some (Ok (length (afterHooks w)), w') /\
      (Forall (fun k => hook_id k <> hook_id h) (afterHooks w) -> w' = w)) /\
  (clearGuards;; n ← getBeforeGuardsCount; m ← getAfterHooksCount;
   r ← runGuards from to; mret (n, m, r)) w =
    Some (Ok (0, 0, RBool true), set_afterHooks [] (set_beforeGuards [] w)).
Proof.
  split; [|split; [|split; [|split]]].
  - unfold beforeEach, getBeforeGuardsCount, mbind, M_bind, mret, M_ret, modify, get_world.
    cbn [beforeGuards set_beforeGuards]. rewrite length_app. cbn [length].
    do 3 f_equal. lia.
  - unfold afterEach, getAfterHooksCount, mbind, M_bind, mret, M_ret, modify, get_world.
    cbn [afterHooks set_afterHooks]. rewrite length_app. cbn [length].
    do 3 f_equal. lia.
  - exists (set_beforeGuards (remove_guard (guard_id g) (beforeGuards w ++ [g])) w).
    split.
    + unfold beforeEach, getBeforeGuardsCount, mbind, M_bind, mret, M_ret, modify,
        get_world.
      cbn [beforeGuards set_beforeGuards]. now rewrite remove_guard_snoc_length.
    + intros Hfresh. rewrite (remove_guard_snoc_fresh g _ Hfresh).
      apply set_beforeGuards_same.
  - exists (set_afterHooks (remove_hook (hook_id h) (afterHooks w ++ [h])) w).
    split.
    + unfold afterEach, getAfterHooksCount, mbind, M_bind, mret, M_ret, modify,
        get_world.
      cbn [afterHooks set_afterHooks]. now rewrite remove_hook_snoc_length.
    + intros Hfresh. rewrite (remove_hook_snoc_fresh h _ Hfresh).
      apply set_afterHooks_same.
  - reflexivity.
Qed.
